(** * hagrid: the irregular grid of [src/grid.h]

    A shallow embedding of the read-time operations of the irregular grid
    (voxel map lookup, reference enumeration, range and dimension sizing,
    packed cell transfer) together with the properties stated about them.

    Conventions of the embedding:
    - [int] and [uint32_t] values are integers of [Z]; the conversions that
      the C++ code performs implicitly ([(uint)], [int(...)], the narrowing
      to [unsigned short]) are written out;
    - arrays are lists read through [get], which fails outside the array;
    - a computation yields an [outcome]: a value, undefined behaviour, or
      the exhaustion of the loop budget handed to it;
    - [float] values are those of the binary32 format, and every
      floating-point operation rounds its exact result to the nearest of
      them. *)

From Stdlib Require Import ZArith List Bool Lia QArith Qround Qpower Lqa.
Import ListNotations.
Local Open Scope Z_scope.

(** ** Machine integers *)

Module Int.

Definition min_int : Z := - 2 ^ 31.
Definition max_int : Z := 2 ^ 31 - 1.

(** The values of an [int]. *)
Definition in_int (z : Z) : Prop := min_int <= z <= max_int.

Definition in_intb (z : Z) : bool := (min_int <=? z) && (z <=? max_int).

(** The values of a [uint32_t] and of an [unsigned short]. *)
Definition in_uint (z : Z) : Prop := 0 <= z < 2 ^ 32.
Definition in_ushort (z : Z) : Prop := 0 <= z < 2 ^ 16.

(** [(uint) z]: reduction modulo [2^32]. *)
Definition to_uint (z : Z) : Z := z mod 2 ^ 32.

(** Conversion of a [uint32_t] to [int]: the two's complement reading. *)
Definition to_int (z : Z) : Z := (z + 2 ^ 31) mod 2 ^ 32 - 2 ^ 31.

(** Narrowing to [unsigned short]. *)
Definition to_ushort (z : Z) : Z := z mod 2 ^ 16.

End Int.

(** ** Outcomes of a computation *)

Inductive outcome (A : Type) : Type :=
| Ret (a : A)       (* normal return *)
| Undef             (* undefined behaviour: a read outside an array, a
                       signed overflow, a shift by an invalid amount *)
| Timeout.          (* the loop budget ran out *)

Arguments Ret {A} a.
Arguments Undef {A}.
Arguments Timeout {A}.

Definition bind {A B} (m : outcome A) (k : A -> outcome B) : outcome B :=
  match m with
  | Ret a => k a
  | Undef => Undef
  | Timeout => Timeout
  end.

Notation "x <- m ;; k" := (bind m (fun x => k))
  (at level 61, m at next level, right associativity).

Notation "' pat <- m ;; k" :=
  (bind m (fun x => match x with pat => k end))
  (at level 61, pat pattern, m at next level, right associativity).

(** An [int] operation whose mathematical result must fit an [int]. *)
Definition checked (z : Z) : outcome Z :=
  if Int.in_intb z then Ret z else Undef.

(** [a[i]]: the read fails outside the array. *)
Definition get {A} (a : list A) (i : Z) : option A :=
  if i <? 0 then None else nth_error a (Z.to_nat i).

Definition read {A} (a : list A) (i : Z) : outcome A :=
  match get a i with
  | Some v => Ret v
  | None => Undef
  end.

(** ** Vectors, cells and entries *)

(** Modelled from the spec: the three-component vectors of [vec.h], which
    is not among the sources, with component-wise operators.  [ivec3] has
    [int] components, [usvec3] has [unsigned short] components (16-bit
    unsigned integers), [vec3] has [float] ones. *)
Record vec (A : Type) : Type := mk_vec { vec_x : A; vec_y : A; vec_z : A }.

Arguments mk_vec {A} _ _ _.
Arguments vec_x {A} _.
Arguments vec_y {A} _.
Arguments vec_z {A} _.

Definition ivec3 := vec Z.
Definition usvec3 := vec Z.

Definition vec_map {A B} (f : A -> B) (v : vec A) : vec B :=
  mk_vec (f (vec_x v)) (f (vec_y v)) (f (vec_z v)).

Definition vec_all {A} (P : A -> Prop) (v : vec A) : Prop :=
  P (vec_x v) /\ P (vec_y v) /\ P (vec_z v).

(** The constructor [usvec3(a, b, c)] applied to wider integers narrows each
    of them. *)
Definition mk_usvec3 (a b c : Z) : usvec3 :=
  mk_vec (Int.to_ushort a) (Int.to_ushort b) (Int.to_ushort c).

(** Voxel map entry. *)
Module Entry.

Definition LOG_DIM_BITS : Z := 2.
Definition BEGIN_BITS : Z := 32 - LOG_DIM_BITS.

Record t : Type := mk {
  log_dim : Z;   (* logarithm of the dimensions of the entry (0 for leaves) *)
  begin : Z      (* next entry index (cell index for leaves) *)
}.

(** The values that the two bit-fields can hold. *)
Definition ok (e : t) : Prop :=
  0 <= log_dim e < 2 ^ LOG_DIM_BITS /\ 0 <= begin e < 2 ^ BEGIN_BITS.

Definition okb (e : t) : bool :=
  (0 <=? log_dim e) && (log_dim e <? 2 ^ LOG_DIM_BITS) &&
  (0 <=? begin e) && (begin e <? 2 ^ BEGIN_BITS).

End Entry.

(** Returns a voxel map entry with the given dimension and starting index;
    a bit-field keeps the low bits of what is stored into it. *)
Definition make_entry (log_dim begin : Z) : Entry.t :=
  Entry.mk (log_dim mod 2 ^ Entry.LOG_DIM_BITS) (begin mod 2 ^ Entry.BEGIN_BITS).

(** Cell of the irregular grid. *)
Record Cell : Type := mk_Cell {
  cell_min : ivec3;
  cell_begin : Z;
  cell_max : ivec3;
  cell_end : Z
}.

(** Compressed irregular grid cell. *)
Record SmallCell : Type := mk_SmallCell {
  sc_min : usvec3;
  sc_max : usvec3;
  sc_begin : Z
}.

(** A compressed cell whose coordinates fit 16 bits and whose [begin] is an
    [int]. *)
Definition small_cell_ok (c : SmallCell) : Prop :=
  vec_all Int.in_ushort (sc_min c) /\ vec_all Int.in_ushort (sc_max c) /\
  Int.in_int (sc_begin c).

(** ** Packed transfer of cells *)

(** The 128-bit words [int4] and [uint4], as four 32-bit lanes. *)
Record word4 : Type := mk_word4 { w4_x : Z; w4_y : Z; w4_z : Z; w4_w : Z }.

Definition int4 := word4.
Definition uint4 := word4.

Definition make_int4 (a b c d : Z) : int4 := mk_word4 a b c d.

(** [make_uint4] takes [unsigned int] arguments: each is converted. *)
Definition make_uint4 (a b c d : Z) : uint4 :=
  mk_word4 (Int.to_uint a) (Int.to_uint b) (Int.to_uint c) (Int.to_uint d).

(** [store_cell] for a [Cell]: the two words written at [ptr[0]] and
    [ptr[1]]. *)
Definition store_cell (cell : Cell) : int4 * int4 :=
  (make_int4 (vec_x (cell_min cell)) (vec_y (cell_min cell))
             (vec_z (cell_min cell)) (cell_begin cell),
   make_int4 (vec_x (cell_max cell)) (vec_y (cell_max cell))
             (vec_z (cell_max cell)) (cell_end cell)).

(** [load_cell] for a [Cell], from the two words at [ptr[0]] and [ptr[1]]. *)
Definition load_cell (ptr : int4 * int4) : Cell :=
  let cell0 := fst ptr in
  let cell1 := snd ptr in
  mk_Cell (mk_vec (w4_x cell0) (w4_y cell0) (w4_z cell0)) (w4_w cell0)
          (mk_vec (w4_x cell1) (w4_y cell1) (w4_z cell1)) (w4_w cell1).

Definition load_cell_min (ptr : int4 * int4) : ivec3 :=
  let cell0 := fst ptr in
  mk_vec (w4_x cell0) (w4_y cell0) (w4_z cell0).

(** [lo | ((uint)(hi) << 16)]: the [unsigned short] operand [hi] is cast to
    [uint] before the shift, which is therefore done on 32 bits. *)
Definition pack_lanes (lo hi : Z) : Z :=
  Z.lor lo (Int.to_uint (Z.shiftl (Int.to_uint hi) 16)).

(** [store_cell] for a [SmallCell]: the single word written. *)
Definition store_cell_small (cell : SmallCell) : uint4 :=
  make_uint4
    (pack_lanes (vec_x (sc_min cell)) (vec_y (sc_min cell)))
    (pack_lanes (vec_z (sc_min cell)) (vec_x (sc_max cell)))
    (pack_lanes (vec_y (sc_max cell)) (vec_z (sc_max cell)))
    (Int.to_uint (sc_begin cell)).

(** [load_cell] for a [SmallCell]: the [uint] lanes are narrowed by the
    [usvec3] constructor, and [cell.w] is converted to [int]. *)
Definition load_cell_small (cell : uint4) : SmallCell :=
  mk_SmallCell
    (mk_usvec3 (w4_x cell) (Z.shiftr (w4_x cell) 16) (w4_y cell))
    (mk_usvec3 (Z.shiftr (w4_y cell) 16) (w4_z cell) (Z.shiftr (w4_z cell) 16))
    (Int.to_int (w4_w cell)).


(** ** Reference enumeration *)

Section Foreach.

(** The visitor [f] acts on a state of type [St]; [ref_ids] is the array
    of primitive references. *)
Context {St : Type}.
Variable ref_ids : list Z.
Variable f : Z -> St -> St.

(** [cur < end ? ref_ids[cur++] : -1]: the value read and the new
    [cur]. *)
Definition next_ref (cell_end cur : Z) : outcome (Z * Z) :=
  if cur <? cell_end then
    r <- read ref_ids cur ;; Ret (r, cur + 1)
  else Ret (-1, cur).

(** The loop of [foreach_ref] for a [Cell]. *)
Fixpoint foreach_ref_loop (fuel : nat) (cell_end cur ref : Z) (s : St)
  : outcome St :=
  if 0 <=? ref then
    match fuel with
    | O => Timeout
    | S fuel' =>
        '(next, cur') <- next_ref cell_end cur ;;
        foreach_ref_loop fuel' cell_end cur' next (f ref s)
    end
  else Ret s.

(** [foreach_ref(Cell, ref_ids, f)]: the value returned and the state the
    calls of [f] leave. *)
Definition foreach_ref (fuel : nat) (cell : Cell) (s : St)
  : outcome (Z * St) :=
  '(ref, cur) <- next_ref (cell_end cell) (cell_begin cell) ;;
  s' <- foreach_ref_loop fuel (cell_end cell) cur ref s ;;
  n <- checked (cell_end cell - cell_begin cell) ;;
  Ret (n, s').

(** The loop of [foreach_ref] for a [SmallCell]; it yields the final
    [cur] with the state. *)
Fixpoint foreach_ref_small_loop (fuel : nat) (cur ref : Z) (s : St)
  : outcome (Z * St) :=
  if 0 <=? ref then
    match fuel with
    | O => Timeout
    | S fuel' =>
        next <- read ref_ids cur ;;
        foreach_ref_small_loop fuel' (cur + 1) next (f ref s)
    end
  else Ret (cur, s).

(** [foreach_ref(SmallCell, ref_ids, f)]. *)
Definition foreach_ref_small (fuel : nat) (small_cell : SmallCell) (s : St)
  : outcome (Z * St) :=
  let cur := sc_begin small_cell in
  '(ref, cur) <- (if 0 <=? cur then r <- read ref_ids cur ;; Ret (r, cur + 1)
                  else Ret (-1, cur)) ;;
  '(cur, s') <- foreach_ref_small_loop fuel cur ref s ;;
  n <- checked (cur - sc_begin small_cell) ;;
  Ret (n, s').

End Foreach.

(** A visitor that records the references it is given, latest first. *)
Definition record_ref (r : Z) (seen : list Z) : list Z := r :: seen.

(** What applying [f] to the references [refs], first to last, leaves. *)
Definition visit_all {St} (f : Z -> St -> St) (refs : list Z) (s : St) : St :=
  fold_left (fun acc r => f r acc) refs s.

(** The part of the array at the indices [begin], ..., [end - 1]. *)
Definition slice (ref_ids : list Z) (b e : Z) : list Z :=
  firstn (Z.to_nat (e - b)) (skipn (Z.to_nat b) ref_ids).

(** The references of a list up to its first negative element. *)
Fixpoint live_prefix (refs : list Z) : list Z :=
  match refs with
  | [] => []
  | r :: rest => if 0 <=? r then r :: live_prefix rest else []
  end.

(** The array holds, from index [b] on, the references [refs] followed by a
    negative terminator. *)
Definition chain_at (ref_ids : list Z) (b : Z) (refs : list Z) : Prop :=
  0 <= b /\ Forall (fun r => 0 <= r) refs /\
  exists stop rest,
    stop < 0 /\ skipn (Z.to_nat b) ref_ids = refs ++ stop :: rest.

(** ** Binary32 floating point *)

(** The rational rounded towards zero. *)
Definition Qtrunc (q : Q) : Z := Z.quot (Qnum q) (Zpos (Qden q)).

(** [float] is the IEEE 754 binary32 format in the default rounding mode,
    to nearest with ties to even.  A value is a signed zero, a finite
    non-zero number, an infinity or a NaN.  The finite non-zero values of
    the format are the rationals [m * 2^e] with [|m| < 2^24] and
    [e >= -149] of magnitude below [2^128], which [valid] singles out, and
    every operation returns one of them: it rounds its exact result, to an
    infinity on overflow and to a zero of the same sign on underflow.  No
    floating-point expression of [grid.h] adds to a product, so none can be
    contracted to a fused multiply-add. *)
Module Float.

Inductive t : Type :=
| Zero (neg : bool)
| Fin (q : Q)
| Inf (neg : bool)
| NaN.

Definition emin : Z := -149.
Definition prec : Z := 24.
Definition emax : Z := 128.

Definition pow2 (e : Z) : Q := (2 ^ e)%Q.

(** The exponent [k] with [2^k <= a < 2^(k+1)], for [a > 0]. *)
Definition ilog2 (a : Q) : Z :=
  let k := Z.log2 (Qnum a) - Z.log2 (Zpos (Qden a)) in
  if Qle_bool (pow2 k) a then k else k - 1.

(** The exponent of the last place of the floats around [a > 0]. *)
Definition exponent (a : Q) : Z := Z.max (ilog2 a - (prec - 1)) emin.

(** The nearest integer, ties to even. *)
Definition round_int (x : Q) : Z :=
  let f := Qfloor x in
  match Qcompare (x - inject_Z f) (1 # 2) with
  | Lt => f
  | Gt => f + 1
  | Eq => if Z.even f then f else f + 1
  end.

(** [a > 0] in units of the last place, and the nearest multiple of that
    unit. *)
Definition scaled (a : Q) : Q := (a / pow2 (exponent a))%Q.

Definition round_pos (a : Q) : Q :=
  (inject_Z (round_int (scaled a)) * pow2 (exponent a))%Q.

Definition round_mag (neg : bool) (a : Q) : t :=
  let v := round_pos a in
  if Qle_bool (pow2 emax) v then Inf neg
  else if Qeq_bool v 0 then Zero neg
  else Fin (Qred (if neg then - v else v)).

(** The float that an exact result rounds to: overflow gives an infinity,
    underflow a zero of the same sign. *)
Definition round (q : Q) : t :=
  match Qcompare q 0 with
  | Eq => Zero false
  | Gt => round_mag false q
  | Lt => round_mag true (- q)
  end.

Definition is_neg (q : Q) : bool :=
  match Qcompare q 0 with Lt => true | _ => false end.

Definition opp (x : t) : t :=
  match x with
  | Zero s => Zero (negb s)
  | Fin q => Fin (Qred (- q))
  | Inf s => Inf (negb s)
  | NaN => NaN
  end.

Definition add (x y : t) : t :=
  match x, y with
  | NaN, _ | _, NaN => NaN
  | Inf s, Inf s' => if Bool.eqb s s' then Inf s else NaN
  | Inf s, _ | _, Inf s => Inf s
  | Zero s, Zero s' => Zero (s && s')
  | Zero _, Fin q | Fin q, Zero _ => round q
  | Fin a, Fin b => round (a + b)
  end.

Definition sub (x y : t) : t := add x (opp y).

Definition mul (x y : t) : t :=
  match x, y with
  | NaN, _ | _, NaN => NaN
  | Inf _, Zero _ | Zero _, Inf _ => NaN
  | Inf s, Inf s' => Inf (xorb s s')
  | Inf s, Fin q | Fin q, Inf s => Inf (xorb s (is_neg q))
  | Zero s, Zero s' => Zero (xorb s s')
  | Zero s, Fin q | Fin q, Zero s => Zero (xorb s (is_neg q))
  | Fin a, Fin b => round (a * b)
  end.

Definition div (x y : t) : t :=
  match x, y with
  | NaN, _ | _, NaN => NaN
  | Inf _, Inf _ => NaN
  | Zero _, Zero _ => NaN
  | Inf s, Zero s' => Inf (xorb s s')
  | Inf s, Fin q => Inf (xorb s (is_neg q))
  | Zero s, Inf s' => Zero (xorb s s')
  | Zero s, Fin q => Zero (xorb s (is_neg q))
  | Fin q, Zero s => Inf (xorb (is_neg q) s)
  | Fin q, Inf s => Zero (xorb (is_neg q) s)
  | Fin a, Fin b => round (a / b)
  end.

(** The conversion of an [int] to [float]. *)
Definition of_int (z : Z) : t := round (inject_Z z).

(** The float that a decimal constant denotes: the nearest one. *)
Definition of_Q (q : Q) : t := round q.

(** The number that a float stands for, if it is one. *)
Definition real (x : t) : option Q :=
  match x with
  | Zero _ => Some 0%Q
  | Fin q => Some q
  | Inf _ | NaN => None
  end.

(** The zeros and the finite non-zero numbers, and the numbers above
    zero. *)
Definition finite (x : t) : Prop :=
  match x with
  | Zero _ | Fin _ => True
  | Inf _ | NaN => False
  end.

Definition positive (x : t) : Prop :=
  match x with
  | Fin q => (0 < q)%Q
  | _ => False
  end.

(** The number that [q] rounds to, overflow aside. *)
Definition rounded (q : Q) : Q :=
  match Qcompare q 0 with
  | Eq => 0%Q
  | Gt => round_pos q
  | Lt => (- round_pos (- q))%Q
  end.

(** The order of the floats that are numbers. *)
Definition le (x y : t) : Prop :=
  match real x, real y with
  | Some a, Some b => (a <= b)%Q
  | _, _ => False
  end.

(** The values of the format: a finite non-zero one is a reduced fraction
    that rounding leaves as it is. *)
Definition valid (x : t) : Prop :=
  match x with
  | Fin q => round q = Fin q
  | _ => True
  end.

End Float.

(** ** Range and dimension sizing *)

Definition vec3 := vec Float.t.

(** Modelled from the spec: the bounding box of [bbox.h], a pair of corner
    points whose [extents()] is the per-axis difference [max - min]. *)
Record BBox : Type := mk_BBox { bb_min : vec3; bb_max : vec3 }.

Definition extents (bb : BBox) : vec3 :=
  mk_vec (Float.sub (vec_x (bb_max bb)) (vec_x (bb_min bb)))
         (Float.sub (vec_y (bb_max bb)) (vec_y (bb_min bb)))
         (Float.sub (vec_z (bb_max bb)) (vec_z (bb_min bb))).

(** [vec3(dims)]: the conversion of each component to [float]. *)
Definition vec3_of_ivec3 (v : ivec3) : vec3 := vec_map Float.of_int v.

(** The component-wise quotient of two [vec3]. *)
Definition vec_div (a b : vec3) : vec3 :=
  mk_vec (Float.div (vec_x a) (vec_x b)) (Float.div (vec_y a) (vec_y b))
         (Float.div (vec_z a) (vec_z b)).

(** [int(x)]: the conversion of a [float] to [int] drops the fractional
    part; it is undefined for an infinity, for a NaN and when the result
    does not fit. *)
Definition int_of_float (x : Float.t) : outcome Z :=
  match Float.real x with
  | Some q => checked (Qtrunc q)
  | None => Undef
  end.

(** A 3D integer range. *)
Record Range : Type := mk_Range {
  lx : Z; ly : Z; lz : Z;
  hx : Z; hy : Z; hz : Z
}.

(** [Range::size()]: [(hx - lx + 1) * (hy - ly + 1) * (hz - lz + 1)] in
    [int] arithmetic. *)
Definition size (r : Range) : outcome Z :=
  a <- checked (hx r - lx r) ;;
  a <- checked (a + 1) ;;
  b <- checked (hy r - ly r) ;;
  b <- checked (b + 1) ;;
  c <- checked (hz r - lz r) ;;
  c <- checked (c + 1) ;;
  ab <- checked (a * b) ;;
  checked (ab * c).

(** Computes the range of cells that intersect the given box. *)
Definition compute_range (dims : ivec3) (grid_bb obj_bb : BBox)
  : outcome Range :=
  let inv := vec_div (vec3_of_ivec3 dims) (extents grid_bb) in
  tlx <- int_of_float (Float.mul (Float.sub (vec_x (bb_min obj_bb)) (vec_x (bb_min grid_bb))) (vec_x inv)) ;;
  tly <- int_of_float (Float.mul (Float.sub (vec_y (bb_min obj_bb)) (vec_y (bb_min grid_bb))) (vec_y inv)) ;;
  tlz <- int_of_float (Float.mul (Float.sub (vec_z (bb_min obj_bb)) (vec_z (bb_min grid_bb))) (vec_z inv)) ;;
  thx <- int_of_float (Float.mul (Float.sub (vec_x (bb_max obj_bb)) (vec_x (bb_min grid_bb))) (vec_x inv)) ;;
  mx <- checked (vec_x dims - 1) ;;
  thy <- int_of_float (Float.mul (Float.sub (vec_y (bb_max obj_bb)) (vec_y (bb_min grid_bb))) (vec_y inv)) ;;
  my <- checked (vec_y dims - 1) ;;
  thz <- int_of_float (Float.mul (Float.sub (vec_z (bb_max obj_bb)) (vec_z (bb_min grid_bb))) (vec_z inv)) ;;
  mz <- checked (vec_z dims - 1) ;;
  Ret (mk_Range (Z.max tlx 0) (Z.max tly 0) (Z.max tlz 0)
                (Z.min thx mx) (Z.min thy my) (Z.min thz mz)).


Section GridDims.

(** The cube root of the C library, left open. *)
Variable cbrtf : Float.t -> Float.t.

(** Computes grid dimensions based on the formula by Cleary et al. *)
Definition compute_grid_dims (bb : BBox) (num_prims : Z) (density : Float.t)
  : outcome ivec3 :=
  let extents := extents bb in
  let volume :=
    Float.mul (Float.mul (vec_x extents) (vec_y extents)) (vec_z extents) in
  let ratio :=
    cbrtf (Float.div (Float.mul density (Float.of_int num_prims)) volume) in
  dx <- int_of_float (Float.mul (vec_x extents) ratio) ;;
  dy <- int_of_float (Float.mul (vec_y extents) ratio) ;;
  dz <- int_of_float (Float.mul (vec_z extents) ratio) ;;
  Ret (mk_vec (Z.max 1 dx) (Z.max 1 dy) (Z.max 1 dz)).

End GridDims.

(** A cube root for running [compute_grid_dims]: zeros, infinities and NaN
    are mapped to themselves, a fraction whose numerator and denominator
    are cubes to its exact root, and any other fraction to the quotient of
    the two integer roots rounded down, rounded to a float. *)
Fixpoint cbrt_bits (n : nat) (a r : Z) : Z :=
  match n with
  | O => r
  | S n' =>
      let r' := r + 2 ^ Z.of_nat n' in
      if r' * r' * r' <=? a then cbrt_bits n' a r' else cbrt_bits n' a r
  end.

Definition Zcbrt (a : Z) : Z :=
  Z.sgn a * cbrt_bits (Z.to_nat (Z.log2 (Z.abs a) / 3 + 1)) (Z.abs a) 0.

Definition Qcbrt (q : Q) : Q :=
  let r := Qred q in
  Qmake (Zcbrt (Qnum r)) (Z.to_pos (Zcbrt (Zpos (Qden r)))).

Definition cbrtf_of_cubes (x : Float.t) : Float.t :=
  match x with
  | Float.Fin q => Float.round (Qcbrt q)
  | other => other
  end.

(** ** Hierarchical lookup *)

(** [a >> s] on [int]: undefined unless [0 <= s < 32]. *)
Definition shift_right (v : ivec3) (s : Z) : outcome ivec3 :=
  if (0 <=? s) && (s <? 32) then Ret (vec_map (fun a => Z.shiftr a s) v)
  else Undef.

(** The index of the top-level entry of a voxel:
    [(voxel.x >> shift) + dims.x * ((voxel.y >> shift) + dims.y * (voxel.z >> shift))]. *)
Definition top_index (shift : Z) (dims voxel : ivec3) : outcome Z :=
  t <- shift_right voxel shift ;;
  a <- checked (vec_y dims * vec_z t) ;;
  b <- checked (vec_y t + a) ;;
  c <- checked (vec_x dims * b) ;;
  checked (vec_x t + c).

(** The offset of a child in its block:
    [k.x + ((k.y + (k.z << log_dim)) << log_dim)]. *)
Definition child_offset (log_dim : Z) (k : ivec3) : Z :=
  vec_x k + Z.shiftl (vec_y k + Z.shiftl (vec_z k) log_dim) log_dim.

(** The loop of [lookup_entry]; [log_dim] and [d] are [uint32_t], and so is
    the index [begin + ...] of the child. *)
Fixpoint lookup_loop (fuel : nat) (entries : list Entry.t) (shift : Z)
  (voxel : ivec3) (entry : Entry.t) (log_dim d : Z) : outcome Z :=
  if log_dim =? 0 then Ret (Entry.begin entry)
  else
    match fuel with
    | O => Timeout
    | S fuel' =>
        let begin := Entry.begin entry in
        let mask := Z.shiftl 1 log_dim - 1 in
        t <- shift_right voxel (Int.to_int (Int.to_uint (shift - d))) ;;
        let k := vec_map (fun a => Z.land a mask) t in
        entry <- read entries (Int.to_uint (begin + child_offset log_dim k)) ;;
        let log_dim := Entry.log_dim entry in
        lookup_loop fuel' entries shift voxel entry log_dim
                    (Int.to_uint (d + log_dim))
    end.

(** [lookup_entry(entries, shift, dims, voxel)]. *)
Definition lookup_entry (fuel : nat) (entries : list Entry.t) (shift : Z)
  (dims voxel : ivec3) : outcome Z :=
  i <- top_index shift dims voxel ;;
  entry <- read entries i ;;
  let log_dim := Entry.log_dim entry in
  let d := log_dim in
  lookup_loop fuel entries shift voxel entry log_dim d.

(** ** The grid and its well-formedness *)

(** Structure holding an irregular grid; the counts [num_cells],
    [num_entries] and [num_refs] are the lengths of the arrays. *)
Module Grid.

Record t : Type := mk {
  entries : list Entry.t;         (* voxel map *)
  ref_ids : list Z;               (* primitive references *)
  cells : list Cell;              (* cells of the structure *)
  small_cells : list SmallCell;   (* compressed cells *)
  bbox : BBox;                    (* bounding box of the scene *)
  dims : ivec3;                   (* top-level dimensions *)
  shift : Z                       (* bits from the deepest level to the top *)
}.

End Grid.

(** The integers [0], ..., [n - 1]. *)
Definition Zrange (n : Z) : list Z := map Z.of_nat (seq 0 (Z.to_nat n)).

(** The points of the box [[0,nx) x [0,ny) x [0,nz)]. *)
Definition coords (nx ny nz : Z) : list ivec3 :=
  flat_map (fun z =>
    flat_map (fun y => map (fun x => mk_vec x y z) (Zrange nx)) (Zrange ny))
    (Zrange nz).

Definition vec_add (a b : ivec3) : ivec3 :=
  mk_vec (vec_x a + vec_x b) (vec_y a + vec_y b) (vec_z a + vec_z b).

Definition vec_scale (a : ivec3) (m : Z) : ivec3 := vec_map (fun c => c * m) a.

(** A voxel of the cube of side [side] whose least corner is [o]. *)
Definition in_cube (o : ivec3) (side : Z) (v : ivec3) : Prop :=
  (vec_x o <= vec_x v < vec_x o + side) /\
  (vec_y o <= vec_y v < vec_y o + side) /\
  (vec_z o <= vec_z v < vec_z o + side).

(** The bounds of a leaf cell: its minimum and maximum coordinates. *)
Record Bounds : Type := mk_Bounds { b_min : ivec3; b_max : ivec3 }.

Definition cell_bounds (c : Cell) : Bounds :=
  mk_Bounds (cell_min c) (cell_max c).

Definition small_cell_bounds (c : SmallCell) : Bounds :=
  mk_Bounds (sc_min c) (sc_max c).

(** A voxel within the inclusive bounds of a cell. *)
Definition in_cell (c : Bounds) (v : ivec3) : Prop :=
  (vec_x (b_min c) <= vec_x v <= vec_x (b_max c)) /\
  (vec_y (b_min c) <= vec_y v <= vec_y (b_max c)) /\
  (vec_z (b_min c) <= vec_z v <= vec_z (b_max c)).

Section Hierarchy.

Variable entries : list Entry.t.
Variable shift : Z.

(** What is asked of a leaf entry, given the depth [d] at which it sits
    and the least corner [o] of the cube of side [2^(shift - d)] that it
    stands for. *)
Variable leaf_ok : Z -> ivec3 -> Entry.t -> bool.

(** The entry at index [i] heads a well-formed subtree: it is a leaf that
    passes [leaf_ok], or an internal entry of side [2^l] whose [8^l]
    children are all in the array, at [begin + child_offset l k] for the
    local coordinate [k], and are well formed one level of [l] bits
    deeper, a depth that must not exceed [shift].  [n] bounds the number
    of internal entries on a path. *)
Fixpoint wf_node (n : nat) (d : Z) (o : ivec3) (i : Z) : bool :=
  match get entries i with
  | None => false
  | Some e =>
      Entry.okb e &&
      if Entry.log_dim e =? 0 then leaf_ok d o e
      else
        match n with
        | O => false
        | S n' =>
            let l := Entry.log_dim e in
            (d + l <=? shift) &&
            forallb (fun k =>
                       wf_node n' (d + l)
                         (vec_add o (vec_scale k (2 ^ (shift - (d + l)))))
                         (Entry.begin e + child_offset l k))
                    (coords (2 ^ l) (2 ^ l) (2 ^ l))
        end
  end.

(** The [dims.x * dims.y * dims.z] top-level entries sit at the start of
    the array, each heading a well-formed subtree. *)
Definition wf_top (dims : ivec3) : bool :=
  forallb (fun t =>
             wf_node (Z.to_nat shift) 0 (vec_scale t (2 ^ shift))
               (vec_x t + vec_x dims * (vec_y t + vec_y dims * vec_z t)))
          (coords (vec_x dims) (vec_y dims) (vec_z dims)).

End Hierarchy.

(** [shift] is a valid shift amount, the dimensions are positive and the
    number of top-level entries is an [int]. *)
Definition wf_params (shift : Z) (dims : ivec3) : bool :=
  (0 <=? shift) && (shift <? 32) &&
  (0 <? vec_x dims) && (0 <? vec_y dims) && (0 <? vec_z dims) &&
  (vec_x dims * vec_y dims * vec_z dims <=? Int.max_int).


(** The cube of a leaf entry lies within the bounds of the cell that the
    entry names. *)
Definition cube_in_cell (cells : list Bounds) (shift : Z)
  (d : Z) (o : ivec3) (e : Entry.t) : bool :=
  match get cells (Entry.begin e) with
  | None => false
  | Some c =>
      let last := 2 ^ (shift - d) - 1 in
      (vec_x (b_min c) <=? vec_x o) && (vec_x o + last <=? vec_x (b_max c)) &&
      (vec_y (b_min c) <=? vec_y o) && (vec_y o + last <=? vec_y (b_max c)) &&
      (vec_z (b_min c) <=? vec_z o) && (vec_z o + last <=? vec_z (b_max c))
  end.

(** Two cells share a voxel. *)
Definition cells_meet (a b : Bounds) : bool :=
  (Z.max (vec_x (b_min a)) (vec_x (b_min b)) <=? Z.min (vec_x (b_max a)) (vec_x (b_max b))) &&
  (Z.max (vec_y (b_min a)) (vec_y (b_min b)) <=? Z.min (vec_y (b_max a)) (vec_y (b_max b))) &&
  (Z.max (vec_z (b_min a)) (vec_z (b_min b)) <=? Z.min (vec_z (b_max a)) (vec_z (b_max b))).

(** No two cells of the array share a voxel. *)
Fixpoint cells_apart (cells : list Bounds) : bool :=
  match cells with
  | [] => true
  | c :: rest => forallb (fun c' => negb (cells_meet c c')) rest && cells_apart rest
  end.

(** The voxels of the grid: [0 <= v < dims << shift] on each axis. *)
Definition in_domain (shift : Z) (dims : ivec3) (v : ivec3) : Prop :=
  (0 <= vec_x v < vec_x dims * 2 ^ shift) /\
  (0 <= vec_y v < vec_y dims * 2 ^ shift) /\
  (0 <= vec_z v < vec_z dims * 2 ^ shift).

Definition cell_in_domain (shift : Z) (dims : ivec3) (c : Bounds) : bool :=
  (0 <=? vec_x (b_min c)) && (vec_x (b_max c) <? vec_x dims * 2 ^ shift) &&
  (0 <=? vec_y (b_min c)) && (vec_y (b_max c) <? vec_y dims * 2 ^ shift) &&
  (0 <=? vec_z (b_min c)) && (vec_z (b_max c) <? vec_z dims * 2 ^ shift).

(** The bounds of the cells of the active cell array: [cells], or
    [small_cells] when the grid is compressed and [cells] is null. *)
Definition active_cells (g : Grid.t) : list Bounds :=
  match Grid.cells g with
  | [] => map small_cell_bounds (Grid.small_cells g)
  | _ :: _ => map cell_bounds (Grid.cells g)
  end.

(** A well-formed frozen grid: the voxel map is a well-formed hierarchy
    over [dims] and [shift] whose leaves name cells that contain their
    cubes, and the cells are disjoint boxes of voxels of the grid. *)
Definition wf_grid (g : Grid.t) : bool :=
  wf_params (Grid.shift g) (Grid.dims g) &&
  wf_top (Grid.entries g) (Grid.shift g)
         (cube_in_cell (active_cells g) (Grid.shift g)) (Grid.dims g) &&
  cells_apart (active_cells g) &&
  forallb (cell_in_domain (Grid.shift g) (Grid.dims g)) (active_cells g).

(** *** A small grid

    Two top-level entries along [x] and [shift = 2]: the first is an
    internal entry of side 2 one of whose children is again internal, the
    second a leaf. *)
Definition leaf (cell : Z) : Entry.t := make_entry 0 cell.
Definition node (log_dim begin : Z) : Entry.t := make_entry log_dim begin.

Definition box (x0 y0 z0 x1 y1 z1 : Z) : Cell :=
  mk_Cell (mk_vec x0 y0 z0) 0 (mk_vec x1 y1 z1) 0.

(** A box given by its corners, each coordinate the float nearest to a
    fraction. *)
Definition bbox_of (x0 y0 z0 x1 y1 z1 : Q) : BBox :=
  mk_BBox (mk_vec (Float.of_Q x0) (Float.of_Q y0) (Float.of_Q z0))
          (mk_vec (Float.of_Q x1) (Float.of_Q y1) (Float.of_Q z1)).

Definition sample_bbox : BBox := bbox_of 0 0 0 8 4 4.

Definition sample_grid : Grid.t :=
  Grid.mk
    [ node 1 2; leaf 0;
      node 1 10; leaf 1; leaf 2; leaf 1; leaf 3; leaf 1; leaf 2; leaf 1;
      leaf 4; leaf 5; leaf 4; leaf 5; leaf 4; leaf 5; leaf 4; leaf 5 ]
    []
    [ box 4 0 0 7 3 3; box 2 0 0 3 3 3; box 0 2 0 1 3 3; box 0 0 2 1 1 3;
      box 0 0 0 0 1 1; box 1 0 0 1 1 1 ]
    []
    sample_bbox
    (mk_vec 2 1 1)
    2.

(** The local coordinate of a voxel in a block of side [2^l] whose
    children have side [2^s]: bits [s] to [s + l - 1] of each component. *)
Definition local_coord (s l : Z) (v : ivec3) : ivec3 :=
  vec_map (fun a => (a / 2 ^ s) mod 2 ^ l) v.

(** Each component of [o] is a multiple of [m]. *)
Definition aligned (m : Z) (o : ivec3) : Prop :=
  vec_all (fun a => (m | a)) o.

(** The top-level cell of a voxel, and the index of its entry. *)
Definition top_coord (shift : Z) (v : ivec3) : ivec3 :=
  vec_map (fun a => a / 2 ^ shift) v.

Definition top_entry (dims t : ivec3) : Z :=
  vec_x t + vec_x dims * (vec_y t + vec_y dims * vec_z t).

(** ** Sample inputs *)

Definition origin : ivec3 := mk_vec 0 0 0.

(** A cell over the slice [[b, e)] of the reference array. *)
Definition cell_over (b e : Z) : Cell := mk_Cell origin b origin e.

(** A compressed cell whose chain starts at [b]. *)
Definition small_cell_at (b : Z) : SmallCell := mk_SmallCell origin origin b.

Definition roundtrip_cell : Cell :=
  mk_Cell (mk_vec (-3) 0 17) 5 (mk_vec 2147483647 4 (-2147483648)) 9.

Definition roundtrip_small_cell : SmallCell :=
  mk_SmallCell (mk_vec 0 65535 258) (mk_vec 32768 1 4660) (-1).

Definition cube_bbox (lo hi : Q) : BBox := bbox_of lo lo lo hi hi hi.

(** A box of extents [1/2], 4 and 4, and one of extents 1, 2 and 4: both of
    volume 8. *)
Definition flat_bbox : BBox := bbox_of 0 0 0 (1 # 2) 4 4.

Definition slab_bbox : BBox := bbox_of 0 0 0 1 2 4.

(** ** Statements about the operations *)

(** [foreach_ref] on [cell] hands every reference of the slice
    [[begin, end)] to the visitor, in the stored order, and returns
    [end - begin]. *)
Definition visits_whole_slice (ref_ids : list Z) (cell : Cell) : Prop :=
  exists fuel,
    foreach_ref ref_ids record_ref fuel cell [] =
    Ret (cell_end cell - cell_begin cell,
         rev (slice ref_ids (cell_begin cell) (cell_end cell))).

(** Every bound of the range lies in [[0, dims - 1]] on its axis. *)
Definition range_within (dims : ivec3) (r : Range) : Prop :=
  (0 <= lx r <= vec_x dims - 1 /\ 0 <= hx r <= vec_x dims - 1) /\
  (0 <= ly r <= vec_y dims - 1 /\ 0 <= hy r <= vec_y dims - 1) /\
  (0 <= lz r <= vec_z dims - 1 /\ 0 <= hz r <= vec_z dims - 1).

(** The scale factor of an axis cut in [dim] cells over the interval from
    [g0] to [g1], [dims / grid_extent], and the coordinate [p] of that axis
    in cell units, [(p - grid.min) * scale]; each operation is rounded. *)
Definition axis_scale (dim : Z) (g0 g1 : Float.t) : Float.t :=
  Float.div (Float.of_int dim) (Float.sub g1 g0).

Definition to_grid (dim : Z) (g0 g1 p : Float.t) : Float.t :=
  Float.mul (Float.sub p g0) (axis_scale dim g0 g1).


(** The bounds [l] and [h] that [compute_range] gives on an axis cut in
    [dim] cells, for the grid interval [[g0, g1]] and the query interval
    [[o0, o1]]: the two coordinates are numbers whose integer parts are
    [int] values; [l] is clamped from below only and [h] from above only;
    [h] rounds towards zero, which is the floor when the coordinate is not
    negative. *)
Definition axis_bounds (dim : Z) (g0 g1 o0 o1 : Float.t) (l h : Z) : Prop :=
  exists t0 t1,
    Float.real (to_grid dim g0 g1 o0) = Some t0 /\
    Float.real (to_grid dim g0 g1 o1) = Some t1 /\
    Int.in_int (Qtrunc t0) /\ Int.in_int (Qtrunc t1) /\
    Int.in_int (dim - 1) /\
    l = Z.max (Qfloor t0) 0 /\
    h = Z.min (Qtrunc t1) (dim - 1) /\
    ((0 <= t1)%Q -> h = Z.min (Qfloor t1) (dim - 1)).

(** A box whose extents are positive numbers, and dimensions whose scale
    factors for a box are numbers. *)
Definition positive_extents (bb : BBox) : Prop :=
  vec_all Float.positive (extents bb).

Definition finite_scale (dims : ivec3) (bb : BBox) : Prop :=
  vec_all Float.finite (vec_div (vec3_of_ivec3 dims) (extents bb)).

(** A point of a box, corners included, and a box that lies within
    another. *)
Definition in_bbox (bb : BBox) (p : vec3) : Prop :=
  (Float.le (vec_x (bb_min bb)) (vec_x p) /\ Float.le (vec_x p) (vec_x (bb_max bb))) /\
  (Float.le (vec_y (bb_min bb)) (vec_y p) /\ Float.le (vec_y p) (vec_y (bb_max bb))) /\
  (Float.le (vec_z (bb_min bb)) (vec_z p) /\ Float.le (vec_z p) (vec_z (bb_max bb))).

Definition bbox_within (a b : BBox) : Prop :=
  in_bbox b (bb_min a) /\ in_bbox b (bb_max a).

(** The voxels of a range: those with [lx <= x <= hx], [ly <= y <= hy]
    and [lz <= z <= hz]. *)
Definition range_voxels (r : Range) : list ivec3 :=
  map (fun k => vec_add (mk_vec (lx r) (ly r) (lz r)) k)
      (coords (hx r - lx r + 1) (hy r - ly r + 1) (hz r - lz r + 1)).

(** The number of cells along each axis of a range, and the conditions
    under which [size] computes their product without overflow. *)
Definition span_x (r : Range) : Z := hx r - lx r + 1.
Definition span_y (r : Range) : Z := hy r - ly r + 1.
Definition span_z (r : Range) : Z := hz r - lz r + 1.

Definition size_defined (r : Range) : Prop :=
  Int.in_int (hx r - lx r) /\ Int.in_int (span_x r) /\
  Int.in_int (hy r - ly r) /\ Int.in_int (span_y r) /\
  Int.in_int (hz r - lz r) /\ Int.in_int (span_z r) /\
  Int.in_int (span_x r * span_y r) /\
  Int.in_int (span_x r * span_y r * span_z r).

(** A cell of a range. *)
Definition in_range (r : Range) (v : ivec3) : Prop :=
  lx r <= vec_x v <= hx r /\ ly r <= vec_y v <= hy r /\ lz r <= vec_z v <= hz r.

(** Two voxels whose components agree on their [shift] low bits. *)
Definition same_low_bits (shift : Z) (v v' : ivec3) : Prop :=
  vec_x v mod 2 ^ shift = vec_x v' mod 2 ^ shift /\
  vec_y v mod 2 ^ shift = vec_y v' mod 2 ^ shift /\
  vec_z v mod 2 ^ shift = vec_z v' mod 2 ^ shift.

(** * Properties *)

(** ** Machine integers and arrays *)

Lemma in_intb_spec z : Int.in_intb z = true <-> Int.in_int z.
Proof.
  unfold Int.in_intb, Int.in_int. rewrite andb_true_iff, !Z.leb_le. tauto.
Qed.

Lemma to_uint_range z : Int.in_uint (Int.to_uint z).
Proof. unfold Int.in_uint, Int.to_uint. apply Z.mod_pos_bound. lia. Qed.

Lemma to_uint_small z : Int.in_uint z -> Int.to_uint z = z.
Proof. unfold Int.in_uint, Int.to_uint. intros. now apply Z.mod_small. Qed.

Lemma to_ushort_small z : Int.in_ushort z -> Int.to_ushort z = z.
Proof. unfold Int.in_ushort, Int.to_ushort. intros. now apply Z.mod_small. Qed.

(** An [int] survives the trip through [uint32_t]. *)
Lemma to_int_to_uint z : Int.in_int z -> Int.to_int (Int.to_uint z) = z.
Proof.
  unfold Int.in_int, Int.min_int, Int.max_int, Int.to_int, Int.to_uint.
  intros H. rewrite Zplus_mod_idemp_l. rewrite Z.mod_small; lia.
Qed.

Lemma checked_in_int z : Int.in_int z -> checked z = Ret z.
Proof.
  intros H. unfold checked. apply in_intb_spec in H. now rewrite H.
Qed.

Lemma checked_Ret z r : checked z = Ret r -> r = z /\ Int.in_int z.
Proof.
  unfold checked. destruct (Int.in_intb z) eqn:E; [|discriminate].
  intros [= <-]. split; [reflexivity|]. now apply in_intb_spec.
Qed.

Lemma get_Some_range {A} (a : list A) i v :
  get a i = Some v -> 0 <= i < Z.of_nat (length a).
Proof.
  unfold get. destruct (Z.ltb_spec i 0); [discriminate|].
  intros E. assert (nth_error a (Z.to_nat i) <> None) as N by congruence.
  apply nth_error_Some in N. lia.
Qed.

Lemma get_in_range {A} (a : list A) i :
  0 <= i < Z.of_nat (length a) -> exists v, get a i = Some v.
Proof.
  intros H. unfold get. destruct (Z.ltb_spec i 0); [lia|].
  destruct (nth_error a (Z.to_nat i)) eqn:E; [eauto|].
  apply nth_error_None in E. lia.
Qed.

(** ** Packed transfer of cells *)

Section Lanes.

Variables lo hi : Z.
Hypothesis Hlo : Int.in_ushort lo.
Hypothesis Hhi : Int.in_ushort hi.

(** The wrap-arounds of the 32-bit shift leave a 16-bit operand alone. *)
Lemma shifted_lane :
  Int.to_uint (Z.shiftl (Int.to_uint hi) 16) = Z.shiftl hi 16.
Proof.
  unfold Int.in_ushort in *.
  rewrite (to_uint_small hi) by (unfold Int.in_uint; lia).
  apply to_uint_small. unfold Int.in_uint.
  rewrite Z.shiftl_mul_pow2 by lia. lia.
Qed.

Lemma lanes_disjoint : Z.land lo (Z.shiftl hi 16) = 0.
Proof.
  unfold Int.in_ushort in *.
  apply Z.bits_inj'. intros n Hn. rewrite Z.land_spec, Z.bits_0.
  destruct (Z.lt_ge_cases n 16).
  - rewrite Z.shiftl_spec_low by lia. apply andb_false_r.
  - rewrite <- (Z.mod_small lo (2 ^ 16)) by lia.
    rewrite Z.mod_pow2_bits_high by lia. reflexivity.
Qed.

Lemma pack_lanes_lor : pack_lanes lo hi = Z.lor lo (Z.shiftl hi 16).
Proof. unfold pack_lanes. now rewrite shifted_lane. Qed.

Lemma pack_lanes_sum : pack_lanes lo hi = lo + hi * 2 ^ 16.
Proof.
  rewrite pack_lanes_lor.
  rewrite <- Z.shiftl_mul_pow2 by lia.
  rewrite <- Z.lxor_lor by apply lanes_disjoint.
  symmetry. apply Z.add_nocarry_lxor, lanes_disjoint.
Qed.

Lemma pack_lanes_range : Int.in_uint (pack_lanes lo hi).
Proof.
  rewrite pack_lanes_sum. unfold Int.in_uint, Int.in_ushort in *. lia.
Qed.

Lemma pack_lanes_low : Int.to_ushort (pack_lanes lo hi) = lo.
Proof.
  rewrite pack_lanes_sum. unfold Int.to_ushort, Int.in_ushort in *.
  rewrite Z.mod_add by lia. now apply Z.mod_small.
Qed.

Lemma pack_lanes_high : Int.to_ushort (Z.shiftr (pack_lanes lo hi) 16) = hi.
Proof.
  rewrite pack_lanes_sum. unfold Int.to_ushort, Int.in_ushort in *.
  rewrite Z.shiftr_div_pow2 by lia.
  rewrite Z.div_add by lia. rewrite Z.div_small by lia.
  now apply Z.mod_small.
Qed.

(** Bit [i] of the packed word: the low operand below 16, the high one
    from 16 on. *)
Lemma pack_lanes_bits i :
  0 <= i < 32 ->
  Z.testbit (pack_lanes lo hi) i =
  if i <? 16 then Z.testbit lo i else Z.testbit hi (i - 16).
Proof.
  intros Hi. rewrite pack_lanes_lor, Z.lor_spec.
  unfold Int.in_ushort in *.
  destruct (Z.ltb_spec i 16).
  - rewrite Z.shiftl_spec_low by lia. apply orb_false_r.
  - rewrite Z.shiftl_spec by lia.
    rewrite <- (Z.mod_small lo (2 ^ 16)) by lia.
    rewrite Z.mod_pow2_bits_high by lia. reflexivity.
Qed.

End Lanes.

Lemma load_store_cell (c : Cell) : load_cell (store_cell c) = c.
Proof. destruct c as [[? ? ?] ? [? ? ?] ?]. reflexivity. Qed.

Lemma load_store_small_cell (sc : SmallCell) :
  small_cell_ok sc -> load_cell_small (store_cell_small sc) = sc.
Proof.
  destruct sc as [[x0 y0 z0] [x1 y1 z1] b].
  unfold small_cell_ok, vec_all. cbn [sc_min sc_max sc_begin vec_x vec_y vec_z].
  intros [(Hx0 & Hy0 & Hz0) [(Hx1 & Hy1 & Hz1) Hb]].
  unfold load_cell_small, store_cell_small, make_uint4, mk_usvec3.
  cbn [w4_x w4_y w4_z w4_w sc_min sc_max sc_begin vec_x vec_y vec_z].
  rewrite !(to_uint_small (pack_lanes _ _)) by now apply pack_lanes_range.
  rewrite !pack_lanes_low, !pack_lanes_high by assumption.
  rewrite (to_uint_small (Int.to_uint b)) by apply to_uint_range.
  now rewrite to_int_to_uint.
Qed.

(** C4.  A cell stored with [store_cell] and loaded back with [load_cell]
    is the cell that was stored, field for field: every [Cell], and every
    [SmallCell] whose six coordinates fit 16 bits and whose [begin] is an
    [int]. *)
Theorem load_store_roundtrip (c : Cell) (sc : SmallCell) :
  small_cell_ok sc ->
  load_cell (store_cell c) = c /\
  load_cell_small (store_cell_small sc) = sc.
Proof.
  intros Hsc. split.
  - apply load_store_cell.
  - now apply load_store_small_cell.
Qed.

Lemma load_store_roundtrip_witness :
  small_cell_ok roundtrip_small_cell /\
  load_cell (store_cell roundtrip_cell) = roundtrip_cell /\
  load_cell_small (store_cell_small roundtrip_small_cell) = roundtrip_small_cell.
Proof.
  assert (small_cell_ok roundtrip_small_cell) as H.
  { unfold small_cell_ok, vec_all, Int.in_ushort, Int.in_int,
      Int.min_int, Int.max_int. simpl. lia. }
  split; [exact H|].
  exact (load_store_roundtrip roundtrip_cell roundtrip_small_cell H).
Defined.

(** C5.  For a [SmallCell] with 16-bit coordinates, [store_cell] writes the
    word whose four 32-bit lanes are [min.x | min.y << 16],
    [min.z | max.x << 16], [max.y | max.z << 16] and [begin] (read as an
    [int]): in each of the first three lanes the first coordinate is bits 0
    to 15 and the second is bits 16 to 31, and every lane is a 32-bit
    value. *)
Theorem store_cell_small_layout (sc : SmallCell) :
  small_cell_ok sc ->
  let w := store_cell_small sc in
  (w4_x w = Z.lor (vec_x (sc_min sc)) (Z.shiftl (vec_y (sc_min sc)) 16) /\
   w4_y w = Z.lor (vec_z (sc_min sc)) (Z.shiftl (vec_x (sc_max sc)) 16) /\
   w4_z w = Z.lor (vec_y (sc_max sc)) (Z.shiftl (vec_z (sc_max sc)) 16) /\
   Int.to_int (w4_w w) = sc_begin sc) /\
  (forall i, 0 <= i < 16 ->
     Z.testbit (w4_x w) i = Z.testbit (vec_x (sc_min sc)) i /\
     Z.testbit (w4_x w) (i + 16) = Z.testbit (vec_y (sc_min sc)) i /\
     Z.testbit (w4_y w) i = Z.testbit (vec_z (sc_min sc)) i /\
     Z.testbit (w4_y w) (i + 16) = Z.testbit (vec_x (sc_max sc)) i /\
     Z.testbit (w4_z w) i = Z.testbit (vec_y (sc_max sc)) i /\
     Z.testbit (w4_z w) (i + 16) = Z.testbit (vec_z (sc_max sc)) i) /\
  (Int.in_uint (w4_x w) /\ Int.in_uint (w4_y w) /\
   Int.in_uint (w4_z w) /\ Int.in_uint (w4_w w)).
Proof.
  destruct sc as [[x0 y0 z0] [x1 y1 z1] b].
  unfold small_cell_ok, vec_all. cbn [sc_min sc_max sc_begin vec_x vec_y vec_z].
  intros [(Hx0 & Hy0 & Hz0) [(Hx1 & Hy1 & Hz1) Hb]].
  unfold store_cell_small, make_uint4.
  cbn [w4_x w4_y w4_z w4_w sc_min sc_max sc_begin vec_x vec_y vec_z].
  rewrite !(to_uint_small (pack_lanes _ _)) by now apply pack_lanes_range.
  rewrite (to_uint_small (Int.to_uint b)) by apply to_uint_range.
  repeat split;
    try (now apply pack_lanes_lor);
    try (now apply to_int_to_uint);
    try (now apply pack_lanes_range);
    try apply to_uint_range;
    try (rewrite pack_lanes_bits by (assumption || lia);
         destruct (Z.ltb_spec i 16); try lia; reflexivity);
    try (rewrite pack_lanes_bits by (assumption || lia);
         destruct (Z.ltb_spec (i + 16) 16); try lia;
         f_equal; lia).
Qed.

Lemma store_cell_small_layout_witness :
  small_cell_ok roundtrip_small_cell /\
  w4_x (store_cell_small roundtrip_small_cell) = Z.lor 0 (Z.shiftl 65535 16) /\
  Int.to_int (w4_w (store_cell_small roundtrip_small_cell)) = -1.
Proof.
  assert (small_cell_ok roundtrip_small_cell) as H.
  { unfold small_cell_ok, vec_all, Int.in_ushort, Int.in_int,
      Int.min_int, Int.max_int. simpl. lia. }
  destruct (store_cell_small_layout roundtrip_small_cell H)
    as [(Ex & _ & _ & Ew) _].
  split; [exact H|]. split; [exact Ex | exact Ew].
Defined.

(** ** Reference enumeration *)

Lemma skipn_head {A} (l : list A) n x t :
  skipn n l = x :: t -> nth_error l n = Some x /\ skipn (S n) l = t.
Proof.
  revert l. induction n as [|n IH]; intros [|y l] E; try discriminate.
  - injection E as -> ->. now split.
  - simpl in E. apply IH in E. exact E.
Qed.

Lemma skipn_in_range {A} (l : list A) n :
  (n < length l)%nat -> exists x, skipn n l = x :: skipn (S n) l.
Proof.
  revert l. induction n as [|n IH]; intros [|y l] H; simpl in H; try lia.
  - now exists y.
  - destruct (IH l) as [x E]; [lia|]. exists x. exact E.
Qed.

Lemma get_skipn {A} (l : list A) i x t :
  0 <= i -> skipn (Z.to_nat i) l = x :: t ->
  get l i = Some x /\ skipn (Z.to_nat (i + 1)) l = t.
Proof.
  intros Hi E. apply skipn_head in E as [E1 E2]. split.
  - unfold get. destruct (Z.ltb_spec i 0); [lia | exact E1].
  - replace (Z.to_nat (i + 1)) with (S (Z.to_nat i)) by lia. exact E2.
Qed.

Lemma slice_empty l b e : e <= b -> slice l b e = [].
Proof.
  intros H. unfold slice. replace (Z.to_nat (e - b)) with 0%nat by lia.
  reflexivity.
Qed.

Lemma slice_step l b e :
  0 <= b < e -> e <= Z.of_nat (length l) ->
  exists r, get l b = Some r /\ slice l b e = r :: slice l (b + 1) e.
Proof.
  intros Hb He.
  destruct (skipn_in_range l (Z.to_nat b)) as [r E]; [lia|].
  exists r. pose proof (get_skipn l b r _ ltac:(lia) E) as [G K].
  split; [exact G|]. unfold slice. rewrite E, K.
  replace (Z.to_nat (e - b)) with (S (Z.to_nat (e - (b + 1)))) by lia.
  reflexivity.
Qed.

Lemma slice_length l b e :
  0 <= b -> e <= Z.of_nat (length l) ->
  length (slice l b e) = Z.to_nat (e - b).
Proof.
  intros Hb He. unfold slice. rewrite length_firstn, length_skipn. lia.
Qed.

Lemma live_prefix_all refs :
  Forall (fun r => 0 <= r) refs -> live_prefix refs = refs.
Proof.
  induction 1 as [|r refs Hr _ IH]; simpl; [reflexivity|].
  destruct (Z.leb_spec 0 r); [now rewrite IH | lia].
Qed.

Lemma live_prefix_stop pre neg post :
  Forall (fun r => 0 <= r) pre -> neg < 0 ->
  live_prefix (pre ++ neg :: post) = pre.
Proof.
  intros Hpre Hneg. induction Hpre as [|r pre Hr _ IH]; simpl.
  - destruct (Z.leb_spec 0 neg); [lia | reflexivity].
  - destruct (Z.leb_spec 0 r); [now rewrite IH | lia].
Qed.

Section ForeachFacts.

Context {St : Type}.
Variable ref_ids : list Z.
Variable f : Z -> St -> St.

(** The loop is over once the reference in hand is negative. *)
Lemma foreach_ref_loop_stop fuel e cur ref s :
  ref < 0 -> foreach_ref_loop ref_ids f fuel e cur ref s = Ret s.
Proof.
  intros H. destruct fuel; simpl; destruct (Z.leb_spec 0 ref); (lia || reflexivity).
Qed.

Lemma foreach_ref_small_loop_stop fuel cur ref s :
  ref < 0 -> foreach_ref_small_loop ref_ids f fuel cur ref s = Ret (cur, s).
Proof.
  intros H. destruct fuel; simpl; destruct (Z.leb_spec 0 ref); (lia || reflexivity).
Qed.

(** With [ref] in hand and the slice from [cur] to [e] still to fetch,
    the loop of the [Cell] variant visits the references up to the first
    negative one. *)
Lemma foreach_ref_loop_spec e n :
  forall cur ref s fuel,
    n = Z.to_nat (e - cur) ->
    (cur < e -> 0 <= cur /\ e <= Z.of_nat (length ref_ids)) ->
    (n < fuel)%nat ->
    foreach_ref_loop ref_ids f fuel e cur ref s =
    Ret (visit_all f (live_prefix (ref :: slice ref_ids cur e)) s).
Proof.
  induction n as [|n IH]; intros cur ref s fuel Hn Hin Hfuel;
    destruct fuel as [|fuel]; try lia; simpl;
    destruct (Z.leb_spec 0 ref); try reflexivity; unfold next_ref.
  - destruct (Z.ltb_spec cur e); [lia|]. simpl.
    rewrite foreach_ref_loop_stop by lia.
    rewrite slice_empty by lia. reflexivity.
  - destruct (Z.ltb_spec cur e); [|lia].
    destruct (slice_step ref_ids cur e) as (r & G & E); try lia.
    unfold read. rewrite G, E. simpl bind.
    rewrite (IH (cur + 1) r (f ref s) fuel); try lia. reflexivity.
Qed.

(** What [foreach_ref] does on any cell whose slice lies in the array. *)
Lemma foreach_ref_spec (cell : Cell) (s : St) (fuel : nat) :
  (cell_begin cell < cell_end cell ->
   0 <= cell_begin cell /\ cell_end cell <= Z.of_nat (length ref_ids)) ->
  Int.in_int (cell_end cell - cell_begin cell) ->
  (Z.to_nat (cell_end cell - cell_begin cell) <= fuel)%nat ->
  foreach_ref ref_ids f fuel cell s =
  Ret (cell_end cell - cell_begin cell,
       visit_all f
         (live_prefix (slice ref_ids (cell_begin cell) (cell_end cell))) s).
Proof.
  intros Hin Hint Hfuel. unfold foreach_ref, next_ref.
  destruct (Z.ltb_spec (cell_begin cell) (cell_end cell)) as [Hlt|Hge].
  - destruct (slice_step ref_ids (cell_begin cell) (cell_end cell))
      as (r & G & E); try lia.
    unfold read. rewrite G, E. simpl bind.
    rewrite (foreach_ref_loop_spec (cell_end cell)
               (Z.to_nat (cell_end cell - (cell_begin cell + 1)))); try lia.
    simpl bind. now rewrite checked_in_int.
  - simpl bind. rewrite foreach_ref_loop_stop by lia. simpl bind.
    rewrite checked_in_int by assumption.
    rewrite slice_empty by lia. reflexivity.
Qed.

(** With [ref] in hand and the rest of a chain from [cur] on, the loop of
    the [SmallCell] variant visits the chain and stops one past its
    terminator. *)
Lemma foreach_ref_small_loop_spec refs :
  forall cur ref s fuel stop rest,
    0 <= cur -> 0 <= ref ->
    skipn (Z.to_nat cur) ref_ids = refs ++ stop :: rest ->
    Forall (fun r => 0 <= r) refs -> stop < 0 ->
    (length refs < fuel)%nat ->
    foreach_ref_small_loop ref_ids f fuel cur ref s =
    Ret (cur + Z.of_nat (length refs) + 1, visit_all f (ref :: refs) s).
Proof.
  induction refs as [|r refs IH];
    intros cur ref s fuel stop rest Hcur Href E Hrefs Hstop Hfuel;
    destruct fuel as [|fuel]; simpl in Hfuel; try lia; simpl;
    destruct (Z.leb_spec 0 ref); try lia;
    apply get_skipn in E as [G K]; try lia;
    unfold read; rewrite G; simpl bind.
  - rewrite foreach_ref_small_loop_stop by lia. f_equal. f_equal. lia.
  - inversion Hrefs as [|? ? Hr Hrefs']; subst.
    rewrite (IH (cur + 1) r (f ref s) fuel stop rest); try lia; try assumption.
    f_equal. f_equal. lia.
Qed.

(** On a chain of [n] references the [SmallCell] variant visits them in
    order and returns [n + 1]: the final [cur] is one past the
    terminator. *)
Lemma foreach_ref_small_spec (sc : SmallCell) (refs : list Z) (s : St)
  (fuel : nat) :
  chain_at ref_ids (sc_begin sc) refs ->
  Int.in_int (Z.of_nat (length refs) + 1) ->
  (length refs <= fuel)%nat ->
  foreach_ref_small ref_ids f fuel sc s =
  Ret (Z.of_nat (length refs) + 1, visit_all f refs s).
Proof.
  intros (Hb & Hrefs & stop & rest & Hstop & E) Hint Hfuel.
  unfold foreach_ref_small.
  destruct (Z.leb_spec 0 (sc_begin sc)); [|lia].
  destruct refs as [|r refs]; simpl app in E;
    apply get_skipn in E as [G K]; try lia;
    unfold read; rewrite G; simpl bind.
  - rewrite foreach_ref_small_loop_stop by lia. simpl bind.
    replace (sc_begin sc + 1 - sc_begin sc) with 1 by lia. reflexivity.
  - inversion Hrefs as [|? ? Hr Hrefs']; subst.
    simpl in Hfuel.
    rewrite (foreach_ref_small_loop_spec refs _ r s fuel stop rest);
      try assumption; try lia.
    simpl bind.
    replace (sc_begin sc + 1 + Z.of_nat (length refs) + 1 - sc_begin sc)
      with (Z.of_nat (length (r :: refs)) + 1) by (simpl length; lia).
    now rewrite checked_in_int.
Qed.

End ForeachFacts.

(** C9.  On a cell whose slice lies in the array, [foreach_ref] returns
    [end - begin] whatever the slice holds: when a negative value is stored
    in the slice the visitor gets the references before it and nothing from
    it on, and the value returned is still [end - begin]. *)
Theorem foreach_ref_count_ignores_contents {St : Type} (ref_ids : list Z)
  (f : Z -> St -> St) (cell : Cell) (s : St) (fuel : nat) :
  (cell_begin cell < cell_end cell ->
   0 <= cell_begin cell /\ cell_end cell <= Z.of_nat (length ref_ids)) ->
  Int.in_int (cell_end cell - cell_begin cell) ->
  (Z.to_nat (cell_end cell - cell_begin cell) <= fuel)%nat ->
  (exists s',
     foreach_ref ref_ids f fuel cell s =
     Ret (cell_end cell - cell_begin cell, s')) /\
  (forall pre neg post,
     slice ref_ids (cell_begin cell) (cell_end cell) = pre ++ neg :: post ->
     Forall (fun r => 0 <= r) pre -> neg < 0 ->
     foreach_ref ref_ids f fuel cell s =
     Ret (cell_end cell - cell_begin cell, visit_all f pre s)).
Proof.
  intros Hin Hint Hfuel.
  pose proof (foreach_ref_spec ref_ids f cell s fuel Hin Hint Hfuel) as E.
  split.
  - eexists. exact E.
  - intros pre neg post Hs Hpre Hneg.
    rewrite E, Hs, live_prefix_stop by assumption. reflexivity.
Qed.

Lemma foreach_ref_count_ignores_contents_witness :
  foreach_ref [3; -1; 2] record_ref 3 (cell_over 0 3) [] = Ret (3, [3]).
Proof.
  assert (Int.in_int (3 - 0)) as Hint
    by (unfold Int.in_int, Int.min_int, Int.max_int; lia).
  destruct (foreach_ref_count_ignores_contents [3; -1; 2] record_ref
              (cell_over 0 3) [] 3) as [_ H].
  - simpl. lia.
  - exact Hint.
  - simpl. lia.
  - apply (H [3] (-1) [2]).
    + reflexivity.
    + repeat constructor. lia.
    + lia.
Defined.

(** C2, as stated, fails: with [-1] stored in the slice the visitor gets
    only the reference before it. *)
Lemma foreach_ref_stops_at_negative :
  (0 <= cell_begin (cell_over 0 3) /\
   cell_end (cell_over 0 3) <= Z.of_nat (length [3; -1; 2])) /\
  ~ visits_whole_slice [3; -1; 2] (cell_over 0 3).
Proof.
  split; [simpl; lia|].
  intros [fuel H]. destruct fuel as [|[|fuel]]; discriminate H.
Qed.

(** C2, amended.  On a cell with [begin <= end] whose slice lies in the
    array and holds no negative value, [foreach_ref] applies the visitor to
    the references of the slice, each once and in the stored order, and
    returns their number, [end - begin]. *)
Theorem foreach_ref_visits_slice {St : Type} (ref_ids : list Z)
  (f : Z -> St -> St) (cell : Cell) (s : St) (fuel : nat) :
  0 <= cell_begin cell <= cell_end cell ->
  cell_end cell <= Z.of_nat (length ref_ids) ->
  Int.in_int (cell_end cell) ->
  Forall (fun r => 0 <= r)
         (slice ref_ids (cell_begin cell) (cell_end cell)) ->
  (Z.to_nat (cell_end cell - cell_begin cell) <= fuel)%nat ->
  foreach_ref ref_ids f fuel cell s =
  Ret (cell_end cell - cell_begin cell,
       visit_all f (slice ref_ids (cell_begin cell) (cell_end cell)) s) /\
  cell_end cell - cell_begin cell =
  Z.of_nat (length (slice ref_ids (cell_begin cell) (cell_end cell))).
Proof.
  intros Hb He Hint Hall Hfuel. split.
  - rewrite foreach_ref_spec; try assumption; try lia.
    + now rewrite live_prefix_all.
    + unfold Int.in_int, Int.min_int, Int.max_int in *. lia.
  - rewrite slice_length by lia. lia.
Qed.

Lemma foreach_ref_visits_slice_witness :
  foreach_ref [0; 0; 0; 0; 0; 3; 7; 2; 9] record_ref 4 (cell_over 5 9) [] =
  Ret (4, [9; 2; 7; 3]).
Proof.
  refine (proj1 (foreach_ref_visits_slice [0; 0; 0; 0; 0; 3; 7; 2; 9]
                   record_ref (cell_over 5 9) [] 4 _ _ _ _ _)).
  - simpl. lia.
  - simpl. lia.
  - unfold Int.in_int, Int.min_int, Int.max_int. simpl. lia.
  - repeat constructor; lia.
  - simpl. lia.
Defined.

(** C3.  On the array [[12; 4; -1]] with [begin = 0] the [SmallCell]
    variant visits 12 and then 4 and stops at the terminator, but the value
    it returns is 3, one more than the two references visited. *)
Theorem foreach_ref_small_counts_terminator (fuel : nat) :
  foreach_ref_small [12; 4; -1] record_ref (S (S fuel)) (small_cell_at 0) [] =
  Ret (3, [4; 12]).
Proof.
  apply (foreach_ref_small_spec [12; 4; -1] record_ref (small_cell_at 0)
           [12; 4] [] (S (S fuel))).
  - split; [simpl; lia|]. split; [repeat constructor; lia|].
    exists (-1), []. split; [lia | reflexivity].
  - unfold Int.in_int, Int.min_int, Int.max_int. simpl. lia.
  - simpl. lia.
Qed.

(** C10.  When [begin] is negative the [SmallCell] variant returns 0 with
    the visitor's state untouched, whatever the array holds, the array
    without elements included: nothing is read and the visitor is not
    called. *)
Theorem foreach_ref_small_negative_begin {St : Type} (ref_ids : list Z)
  (f : Z -> St -> St) (fuel : nat) (sc : SmallCell) (s : St) :
  sc_begin sc < 0 ->
  foreach_ref_small ref_ids f fuel sc s = Ret (0, s).
Proof.
  intros H. unfold foreach_ref_small.
  destruct (Z.leb_spec 0 (sc_begin sc)); [lia|]. simpl bind.
  rewrite foreach_ref_small_loop_stop by lia. simpl bind.
  now rewrite Z.sub_diag.
Qed.

Lemma foreach_ref_small_negative_begin_witness :
  sc_begin (small_cell_at (-1)) < 0 /\
  foreach_ref_small [] record_ref 0 (small_cell_at (-1)) [7] = Ret (0, [7]).
Proof.
  assert (sc_begin (small_cell_at (-1)) < 0) as H by (simpl; lia).
  split; [exact H|].
  exact (foreach_ref_small_negative_begin [] record_ref 0 (small_cell_at (-1)) [7] H).
Defined.

(** ** Binary32 floating point *)

Section Rounding.

Import Float.
Local Open Scope Q_scope.

Lemma pow2_pos e : 0 < pow2 e.
Proof. unfold pow2. apply Qpower_0_lt. reflexivity. Qed.

Lemma pow2_add a b : pow2 (a + b) == pow2 a * pow2 b.
Proof. unfold pow2. apply Qpower_plus. discriminate. Qed.

Lemma pow2_le a b : (a <= b)%Z -> pow2 a <= pow2 b.
Proof. intros H. unfold pow2. apply Qpower_le_compat_l; [assumption|]. discriminate. Qed.

Lemma pow2_lt a b : (a < b)%Z -> pow2 a < pow2 b.
Proof. intros H. unfold pow2. apply Qpower_lt_compat_l; [assumption|]. reflexivity. Qed.

Lemma pow2_Z e : (0 <= e)%Z -> pow2 e == inject_Z (2 ^ e).
Proof. intros H. unfold pow2. now rewrite Zpower_Qpower. Qed.

Lemma pow2_succ e : pow2 (e + 1) == 2 * pow2 e.
Proof. rewrite pow2_add. change (pow2 1) with 2. ring. Qed.

Lemma pow2_lt_inv a b : pow2 a < pow2 b -> (a < b)%Z.
Proof.
  intros H. destruct (Z.lt_ge_cases a b) as [|G]; [assumption|].
  apply pow2_le in G. lra.
Qed.

Lemma Qmake_div n d : n # d == inject_Z n / inject_Z (Zpos d).
Proof. apply Qmake_Qdiv. Qed.

Lemma log2_bounds (n : Z) :
  (0 < n)%Z -> pow2 (Z.log2 n) <= inject_Z n < pow2 (Z.log2 n + 1).
Proof.
  intros H. destruct (Z.log2_spec n H) as [L U].
  pose proof (Z.log2_nonneg n).
  rewrite !pow2_Z by lia. rewrite <- Zle_Qle, <- Zlt_Qlt.
  replace (Z.log2 n + 1)%Z with (Z.succ (Z.log2 n)) by lia. now split.
Qed.

Lemma ilog2_spec a : 0 < a -> pow2 (ilog2 a) <= a < pow2 (ilog2 a + 1).
Proof.
  intros Ha. destruct a as [n d]. unfold ilog2. cbn [Qnum Qden].
  assert (0 < n)%Z as Hn by (unfold Qlt in Ha; simpl in Ha; lia).
  destruct (log2_bounds n Hn) as [Ln Un].
  destruct (log2_bounds (Zpos d) ltac:(lia)) as [Ld Ud].
  set (ln := Z.log2 n) in *. set (ld := Z.log2 (Zpos d)) in *.
  assert (n # d == inject_Z n / inject_Z (Zpos d)) as E by apply Qmake_div.
  assert (0 < inject_Z (Zpos d)) as Pd by (unfold Qlt; simpl; lia).
  assert (pow2 (ln - ld) * pow2 ld == pow2 ln) as Ek.
  { rewrite <- pow2_add. now replace (ln - ld + ld)%Z with ln by lia. }
  pose proof (pow2_pos ld) as Pld. pose proof (pow2_pos (ln - ld)) as Pk.
  pose proof (pow2_pos ln) as Pln.
  rewrite pow2_succ in Un, Ud.
  assert ((n # d) * inject_Z (Zpos d) == inject_Z n) as Em
    by (rewrite E; field; lra).
  set (a := n # d) in *. set (D := inject_Z (Zpos d)) in *.
  set (N := inject_Z n) in *.
  destruct (Qle_bool (pow2 (ln - ld)) a) eqn:T.
  - apply Qle_bool_iff in T. split; [assumption|].
    rewrite pow2_succ.
    apply Qnot_le_lt. intros C.
    assert (2 * pow2 (ln - ld) * D <= a * D) by nra.
    assert (2 * pow2 (ln - ld) * pow2 ld <= 2 * pow2 (ln - ld) * D) by nra.
    nra.
  - assert (a < pow2 (ln - ld)) as T'.
    { apply Qnot_le_lt. intros C. apply Qle_bool_iff in C. congruence. }
    replace (ln - ld - 1 + 1)%Z with (ln - ld)%Z by lia.
    split; [|assumption].
    assert (pow2 (ln - ld) == 2 * pow2 (ln - ld - 1)) as E2.
    { rewrite <- pow2_succ. now replace (ln - ld - 1 + 1)%Z with (ln - ld)%Z by lia. }
    pose proof (pow2_pos (ln - ld - 1)) as Pk1.
    apply Qnot_lt_le. intros C.
    assert (a * D < pow2 (ln - ld - 1) * D) by nra.
    assert (pow2 (ln - ld - 1) * D < pow2 (ln - ld - 1) * (2 * pow2 ld)) by nra.
    nra.
Qed.

Lemma ilog2_unique a k : pow2 k <= a < pow2 (k + 1) -> ilog2 a = k.
Proof.
  intros [L U]. assert (0 < a) as Ha by (pose proof (pow2_pos k); lra).
  destruct (ilog2_spec a Ha) as [L' U'].
  assert (ilog2 a < k + 1)%Z by (apply pow2_lt_inv; lra).
  assert (k < ilog2 a + 1)%Z by (apply pow2_lt_inv; lra).
  lia.
Qed.

Lemma ilog2_comp a b : 0 < a -> a == b -> ilog2 a = ilog2 b.
Proof.
  intros Ha E. symmetry. apply ilog2_unique. rewrite <- E. now apply ilog2_spec.
Qed.

Lemma ilog2_mono a b : 0 < a -> a <= b -> (ilog2 a <= ilog2 b)%Z.
Proof.
  intros Ha H. destruct (ilog2_spec a Ha) as [L U].
  destruct (ilog2_spec b ltac:(lra)) as [L' U'].
  assert (ilog2 a < ilog2 b + 1)%Z by (apply pow2_lt_inv; lra). lia.
Qed.

(** The nearest integer. *)

Lemma round_int_cases x :
  let f := Qfloor x in
  inject_Z f <= x < inject_Z f + 1 /\
  ((x - inject_Z f < 1 # 2 /\ round_int x = f) \/
   (1 # 2 < x - inject_Z f /\ round_int x = (f + 1)%Z) \/
   (x - inject_Z f == 1 # 2 /\ round_int x = if Z.even f then f else (f + 1)%Z)).
Proof.
  intros f. split.
  - split; [apply Qfloor_le|].
    pose proof (Qlt_floor x) as H. fold f in H.
    rewrite inject_Z_plus in H. exact H.
  - unfold round_int. fold f.
    destruct (Qcompare_spec (x - inject_Z f) (1 # 2)); auto.
Qed.

Lemma round_int_error x :
  x - (1 # 2) <= inject_Z (round_int x) <= x + (1 # 2).
Proof.
  destruct (round_int_cases x) as [[L U] [[H ->] | [[H ->] | [H ->]]]];
    try destruct (Z.even (Qfloor x)); rewrite ?inject_Z_plus;
    change (inject_Z 1) with 1; lra.
Qed.

Lemma round_int_Z z : round_int (inject_Z z) = z.
Proof.
  unfold round_int. rewrite Qfloor_Z.
  destruct (Qcompare_spec (inject_Z z - inject_Z z) (1 # 2)) as [H|H|H];
    try reflexivity; lra.
Qed.

Lemma round_int_comp x y : x == y -> round_int x = round_int y.
Proof.
  intros E. unfold round_int. rewrite (Qfloor_comp _ _ E).
  now rewrite E.
Qed.

Lemma round_int_mono x y : x <= y -> (round_int x <= round_int y)%Z.
Proof.
  intros H.
  destruct (round_int_cases x) as [[Lx Ux] Cx].
  destruct (round_int_cases y) as [[Ly Uy] Cy].
  pose proof (Qfloor_resp_le _ _ H) as F.
  destruct (Z.eq_dec (Qfloor x) (Qfloor y)) as [E|N].
  - rewrite E in *.
    destruct Cx as [[Hx ->] | [[Hx ->] | [Hx ->]]],
             Cy as [[Hy ->] | [[Hy ->] | [Hy ->]]];
      try destruct (Z.even (Qfloor y)); try lia; lra.
  - assert (Qfloor x + 1 <= Qfloor y)%Z by lia.
    assert (round_int x <= Qfloor x + 1)%Z
      by (destruct Cx as [[_ ->] | [[_ ->] | [_ ->]]];
          try destruct (Z.even (Qfloor x)); lia).
    assert (Qfloor y <= round_int y)%Z
      by (destruct Cy as [[_ ->] | [[_ ->] | [_ ->]]];
          try destruct (Z.even (Qfloor y)); lia).
    lia.
Qed.

Lemma exponent_spec a :
  0 < a ->
  (emin <= exponent a)%Z /\ a < pow2 (exponent a + 24) /\
  ((emin < exponent a)%Z -> pow2 (exponent a + 23) <= a).
Proof.
  intros Ha. destruct (ilog2_spec a Ha) as [L U]. unfold exponent, prec.
  split; [lia|]. split.
  - eapply Qlt_le_trans; [exact U|]. apply pow2_le. lia.
  - intros H. replace (Z.max (ilog2 a - (24 - 1)) emin + 23)%Z with (ilog2 a) by lia.
    exact L.
Qed.

Lemma exponent_mono a b : 0 < a -> a <= b -> (exponent a <= exponent b)%Z.
Proof. intros Ha H. pose proof (ilog2_mono a b Ha H). unfold exponent. lia. Qed.

Lemma exponent_comp a b : 0 < a -> a == b -> exponent a = exponent b.
Proof. intros Ha E. unfold exponent. now rewrite (ilog2_comp a b Ha E). Qed.

Lemma scaled_mul a : scaled a * pow2 (exponent a) == a.
Proof. unfold scaled. pose proof (pow2_pos (exponent a)). field. lra. Qed.

Lemma pow2_24 e : pow2 (e + 24) == inject_Z (2 ^ 24) * pow2 e.
Proof. rewrite pow2_add, (pow2_Z 24) by lia. ring. Qed.

Lemma pow2_23 e : pow2 (e + 23) == inject_Z (2 ^ 23) * pow2 e.
Proof. rewrite pow2_add, (pow2_Z 23) by lia. ring. Qed.

Lemma scaled_range a :
  0 < a ->
  0 < scaled a < inject_Z (2 ^ 24) /\
  ((emin < exponent a)%Z -> inject_Z (2 ^ 23) <= scaled a).
Proof.
  intros Ha. destruct (exponent_spec a Ha) as (_ & U & L).
  pose proof (pow2_pos (exponent a)) as P.
  pose proof (scaled_mul a) as E.
  rewrite pow2_24 in U.
  split; [split|].
  - apply Qnot_le_lt. intros C. nra.
  - apply Qnot_le_lt. intros C. nra.
  - intros H. specialize (L H). rewrite pow2_23 in L.
    apply Qnot_lt_le. intros C. nra.
Qed.

Lemma round_pos_eq a :
  round_pos a == inject_Z (round_int (scaled a)) * pow2 (exponent a).
Proof. reflexivity. Qed.

Lemma mant_range a :
  0 < a ->
  (0 <= round_int (scaled a) <= 2 ^ 24)%Z /\
  ((emin < exponent a)%Z -> (2 ^ 23 <= round_int (scaled a))%Z).
Proof.
  intros Ha. destruct (scaled_range a Ha) as ([L U] & N).
  split; [split|].
  - apply (Z.le_trans _ (round_int (inject_Z 0))).
    + now rewrite round_int_Z.
    + apply round_int_mono. change (inject_Z 0) with 0. lra.
  - apply (Z.le_trans _ (round_int (inject_Z (2 ^ 24)))).
    + apply round_int_mono. lra.
    + now rewrite round_int_Z.
  - intros H. apply (Z.le_trans _ (round_int (inject_Z (2 ^ 23)))).
    + now rewrite round_int_Z.
    + apply round_int_mono. auto.
Qed.

Lemma round_pos_nonneg a : 0 < a -> 0 <= round_pos a.
Proof.
  intros Ha. rewrite round_pos_eq. destruct (mant_range a Ha) as [[L _] _].
  pose proof (pow2_pos (exponent a)).
  assert (0 <= inject_Z (round_int (scaled a)))
    by (change 0 with (inject_Z 0); rewrite <- Zle_Qle; lia).
  nra.
Qed.

(** Half an ulp. *)
Lemma round_pos_error a :
  0 < a ->
  a - (1 # 2) * pow2 (exponent a) <= round_pos a
    <= a + (1 # 2) * pow2 (exponent a).
Proof.
  intros Ha. rewrite round_pos_eq.
  pose proof (round_int_error (scaled a)) as [L U].
  pose proof (pow2_pos (exponent a)) as P. pose proof (scaled_mul a) as E.
  set (Pw := pow2 (exponent a)) in *. set (x := scaled a) in *.
  set (M := inject_Z (round_int x)) in *.
  clearbody Pw x M.
  assert ((x - (1 # 2)) * Pw <= M * Pw) by (apply Qmult_le_compat_r; lra).
  assert (M * Pw <= (x + (1 # 2)) * Pw) by (apply Qmult_le_compat_r; lra).
  assert ((x - (1 # 2)) * Pw == a - (1 # 2) * Pw) as E1 by (rewrite <- E; ring).
  assert ((x + (1 # 2)) * Pw == a + (1 # 2) * Pw) as E2 by (rewrite <- E; ring).
  rewrite <- E1, <- E2. now split.
Qed.

(** The error is at most [2^-24] of the value, or [2^-150]. *)
Lemma round_pos_error_cases a :
  0 < a ->
  (a - a * pow2 (-24) <= round_pos a <= a + a * pow2 (-24)) \/
  (a - pow2 (-150) <= round_pos a <= a + pow2 (-150)).
Proof.
  intros Ha. pose proof (round_pos_error a Ha) as [L U].
  destruct (exponent_spec a Ha) as (M & _ & N).
  set (h := (1 # 2) * pow2 (exponent a)) in *.
  destruct (Z.eq_dec (exponent a) emin) as [E|E].
  - right.
    assert (h == pow2 (-150)) as Eh.
    { unfold h. rewrite E. unfold emin.
      replace (-149)%Z with (-150 + 1)%Z by lia. rewrite pow2_succ. ring. }
    rewrite <- Eh. now split.
  - left. specialize (N ltac:(lia)).
    assert (h == pow2 (exponent a + 23) * pow2 (-24)) as Eh.
    { unfold h.
      replace (exponent a)%Z with (exponent a + 23 + -24 + 1)%Z at 1 by lia.
      rewrite pow2_succ, pow2_add. ring. }
    pose proof (pow2_pos (-24)).
    assert (h <= a * pow2 (-24)) as B
      by (rewrite Eh; apply Qmult_le_compat_r; lra).
    set (b := a * pow2 (-24)) in *. clearbody h b. lra.
Qed.

(** Values [M * 2^e] with [M <= 2^24] and [e >= emin] are not changed. *)
Lemma round_pos_exact_lt a M e :
  (0 < M < 2 ^ 24)%Z -> (emin <= e)%Z ->
  a == inject_Z M * pow2 e -> round_pos a == a.
Proof.
  intros HM He E.
  pose proof (pow2_pos e) as Pe.
  assert (0 < inject_Z M < inject_Z (2 ^ 24)) as [M0 M1]
    by (change 0 with (inject_Z 0); rewrite <- !Zlt_Qlt; lia).
  assert (0 < a) as Ha by (rewrite E; now apply Qmult_lt_0_compat).
  destruct (ilog2_spec a Ha) as [L U].
  assert (exponent a <= e)%Z as Hle.
  { assert (ilog2 a < e + 24)%Z.
    { apply pow2_lt_inv. rewrite pow2_24.
      eapply Qle_lt_trans; [exact L|]. rewrite E.
      apply Qmult_lt_compat_r; assumption. }
    unfold exponent, prec. lia. }
  set (g := exponent a) in *.
  assert (pow2 e == inject_Z (2 ^ (e - g)) * pow2 g) as Eg.
  { rewrite <- pow2_Z by lia. rewrite <- pow2_add.
    now replace (e - g + g)%Z with e by lia. }
  pose proof (pow2_pos g) as Pg.
  assert (scaled a == inject_Z (M * 2 ^ (e - g))) as Es.
  { unfold scaled. fold g. rewrite E, Eg, inject_Z_mult. field. lra. }
  rewrite round_pos_eq. fold g. rewrite (round_int_comp _ _ Es), round_int_Z.
  rewrite inject_Z_mult, E, Eg. ring.
Qed.

Lemma round_pos_exact a M e :
  (0 < M <= 2 ^ 24)%Z -> (emin <= e)%Z ->
  a == inject_Z M * pow2 e -> round_pos a == a.
Proof.
  intros HM He E. destruct (Z.eq_dec M (2 ^ 24)) as [->|N].
  - apply (round_pos_exact_lt a (2 ^ 23) (e + 1)); try lia.
    rewrite E, pow2_succ.
    change (2 ^ 24)%Z with (2 * 2 ^ 23)%Z. rewrite inject_Z_mult.
    change (inject_Z 2) with 2. ring.
  - apply (round_pos_exact_lt a M e); try assumption. lia.
Qed.

Lemma round_pos_comp a b : 0 < a -> a == b -> round_pos a == round_pos b.
Proof.
  intros Ha E. rewrite !round_pos_eq. unfold scaled.
  rewrite <- (exponent_comp a b Ha E).
  rewrite (round_int_comp (a / pow2 (exponent a)) (b / pow2 (exponent a))).
  - reflexivity.
  - apply Qdiv_comp; [exact E|reflexivity].
Qed.

Lemma round_pos_mono a b : 0 < a -> a <= b -> round_pos a <= round_pos b.
Proof.
  intros Ha H. assert (0 < b) as Hb by lra.
  pose proof (exponent_mono a b Ha H) as He.
  destruct (Z.eq_dec (exponent a) (exponent b)) as [E|N].
  - rewrite !round_pos_eq. unfold scaled. rewrite E.
    pose proof (pow2_pos (exponent b)) as P.
    assert (a / pow2 (exponent b) <= b / pow2 (exponent b)) as S.
    { unfold Qdiv. apply Qmult_le_compat_r; [assumption|].
      apply Qlt_le_weak, Qinv_lt_0_compat, P. }
    apply round_int_mono in S. rewrite Zle_Qle in S. nra.
  - destruct (mant_range a Ha) as [[_ Ua] _].
    destruct (mant_range b Hb) as [_ Lb].
    destruct (exponent_spec a Ha) as (Ma & _).
    specialize (Lb ltac:(lia)).
    rewrite !round_pos_eq.
    rewrite Zle_Qle in Ua, Lb.
    pose proof (pow2_pos (exponent a)) as Pa.
    pose proof (pow2_pos (exponent b)) as Pb.
    assert (pow2 (exponent a + 1) <= pow2 (exponent b)) as Pab
      by (apply pow2_le; lia).
    rewrite pow2_succ in Pab.
    change (2 ^ 24)%Z with (2 * 2 ^ 23)%Z in Ua. rewrite inject_Z_mult in Ua.
    change (inject_Z 2) with 2 in Ua.
    set (B := inject_Z (2 ^ 23)) in *.
    assert (0 < B) by (unfold B; reflexivity).
    eapply Qle_trans; [|apply (Qmult_le_compat_r _ _ _ Lb); lra].
    eapply Qle_trans; [apply (Qmult_le_compat_r _ _ _ Ua); lra|].
    nra.
Qed.

(** Rounding does not tell equal fractions apart. *)
Lemma round_mag_comp s a b : 0 < a -> a == b -> round_mag s a = round_mag s b.
Proof.
  intros Ha E. unfold round_mag. cbv zeta.
  pose proof (round_pos_comp a b Ha E) as R.
  rewrite (Qleb_comp _ _ (Qeq_refl (pow2 emax)) _ _ R).
  rewrite (Qeqb_comp _ _ R _ _ (Qeq_refl 0)).
  destruct (Qle_bool (pow2 emax) (round_pos b)); [reflexivity|].
  destruct (Qeq_bool (round_pos b) 0); [reflexivity|].
  f_equal. apply Qred_complete. destruct s; now rewrite R.
Qed.

Lemma round_comp a b : a == b -> round a = round b.
Proof.
  intros E. unfold round. rewrite <- (Qcompare_comp _ _ E _ _ (Qeq_refl 0)).
  destruct (Qcompare_spec a 0) as [H|H|H]; [reflexivity| |].
  - apply round_mag_comp; [lra | now rewrite E].
  - now apply round_mag_comp.
Qed.

Lemma round_mag_cases s a :
  0 < a ->
  (round_mag s a = Inf s /\ pow2 emax <= round_pos a) \/
  (round_mag s a = Zero s /\ round_pos a == 0) \/
  (round_mag s a = Fin (Qred (if s then - round_pos a else round_pos a)) /\
   0 < round_pos a < pow2 emax).
Proof.
  intros Ha. pose proof (round_pos_nonneg a Ha) as N. unfold round_mag. cbv zeta.
  destruct (Qle_bool (pow2 emax) (round_pos a)) eqn:O.
  - left. split; [reflexivity|]. now apply Qle_bool_iff.
  - assert (round_pos a < pow2 emax) as U.
    { apply Qnot_le_lt. intros C. apply Qle_bool_iff in C. congruence. }
    destruct (Qeq_bool (round_pos a) 0) eqn:Z.
    + right. left. split; [reflexivity|]. now apply Qeq_bool_iff.
    + right. right. split; [reflexivity|]. split; [|exact U].
      apply Qnot_le_lt. intros C.
      assert (round_pos a == 0) as E by lra.
      apply Qeq_bool_iff in E. congruence.
Qed.

Lemma round_of_pos a : 0 < a -> round a = round_mag false a.
Proof.
  intros H. unfold round. destruct (Qcompare_spec a 0); try reflexivity; lra.
Qed.

Lemma round_of_neg a : a < 0 -> round a = round_mag true (- a).
Proof.
  intros H. unfold round. destruct (Qcompare_spec a 0); try reflexivity; lra.
Qed.

Lemma round_of_zero a : a == 0 -> round a = Zero false.
Proof.
  intros H. unfold round. destruct (Qcompare_spec a 0); try reflexivity; lra.
Qed.

(** A positive number whose nearest multiple is positive and below
    [2^128] rounds to that multiple. *)
Lemma round_pos_real a :
  0 < a -> 0 < round_pos a -> round_pos a < pow2 emax ->
  round a = Fin (Qred (round_pos a)).
Proof.
  intros Ha L U. rewrite round_of_pos by assumption.
  destruct (round_mag_cases false a Ha) as [[_ C] | [[_ C] | [-> _]]];
    [lra | lra | reflexivity].
Qed.

Lemma round_Fin q v :
  round q = Fin v ->
  (0 < q /\ v = Qred (round_pos q) /\ 0 < round_pos q < pow2 emax) \/
  (q < 0 /\ v = Qred (- round_pos (- q)) /\
   0 < round_pos (- q) < pow2 emax).
Proof.
  intros H. destruct (Qcompare_spec q 0) as [E|L|G].
  - rewrite round_of_zero in H by assumption. discriminate.
  - right. rewrite round_of_neg in H by assumption.
    assert (0 < - q) as P by lra.
    destruct (round_mag_cases true (- q) P) as [[C _] | [[C _] | [C B]]];
      rewrite C in H; try discriminate.
    injection H as <-. auto.
  - left. rewrite round_of_pos in H by assumption.
    destruct (round_mag_cases false q G) as [[C _] | [[C _] | [C B]]];
      rewrite C in H; try discriminate.
    injection H as <-. auto.
Qed.

(** A positive float is the nearest multiple of a positive number, and is
    below [2^128]. *)
Lemma round_Fin_pos q v :
  round q = Fin v -> 0 < v ->
  0 < q /\ v == round_pos q /\ v < pow2 emax.
Proof.
  intros H Hv. destruct (round_Fin q v H) as [(P & E & B) | (N & E & B)].
  - assert (v == round_pos q) as E' by (rewrite E; apply Qred_correct).
    split; [assumption|]. split; [assumption|]. rewrite E'. apply B.
  - exfalso. assert (v == - round_pos (- q)) as E'
      by (rewrite E; apply Qred_correct).
    destruct B as [B _]. lra.
Qed.

(** The nearest multiple of a nearest multiple is itself. *)
Lemma round_pos_idem a :
  0 < a -> 0 < round_pos a -> round_pos (round_pos a) == round_pos a.
Proof.
  intros Ha P. destruct (mant_range a Ha) as [[L U] _].
  destruct (exponent_spec a Ha) as (E & _).
  apply (round_pos_exact _ (round_int (scaled a)) (exponent a));
    [|assumption|apply round_pos_eq].
  split; [|assumption].
  destruct (Z.eq_dec (round_int (scaled a)) 0) as [C|C]; [|lia].
  exfalso. rewrite round_pos_eq, C in P. change (inject_Z 0) with 0 in P. lra.
Qed.

(** Every result of a rounding is a value of the format. *)
Lemma round_valid q : valid (round q).
Proof.
  destruct (round q) as [s|v|s|] eqn:R; try exact I. cbn [valid].
  destruct (round_Fin q v R) as [(P & -> & L & U) | (N & -> & L & U)].
  - pose proof (round_pos_idem q P L) as K.
    rewrite (round_comp _ (round_pos q) (Qred_correct _)).
    rewrite (round_pos_real (round_pos q) L) by (rewrite K; assumption).
    f_equal. now apply Qred_complete.
  - assert (0 < - q) as P by lra.
    pose proof (round_pos_idem (- q) P L) as K.
    rewrite (round_comp _ (- round_pos (- q)) (Qred_correct _)).
    rewrite round_of_neg by lra.
    rewrite (round_mag_comp true _ (round_pos (- q))) by (lra || ring).
    destruct (round_mag_cases true (round_pos (- q)) L)
      as [[_ C] | [[_ C] | [-> _]]]; [lra | lra |].
    f_equal. apply Qred_complete. now rewrite K.
Qed.

Lemma add_valid x y : valid (add x y).
Proof.
  destruct x, y; cbn [add]; try exact I; try apply round_valid.
  destruct (Bool.eqb neg neg0); exact I.
Qed.

Lemma sub_valid x y : valid (sub x y).
Proof. apply add_valid. Qed.

(** A finite non-zero sum is the rounding of a rational. *)
Lemma add_Fin x y v : add x y = Fin v -> exists q, round q = Fin v.
Proof.
  destruct x, y; cbn [add]; intros H; try discriminate; eauto.
  destruct (Bool.eqb neg neg0); discriminate.
Qed.

(** The conversion of an integer of at most 24 bits is exact. *)
Lemma of_int_exact z :
  (0 < z <= 2 ^ 24)%Z -> exists d, of_int z = Fin d /\ d == inject_Z z.
Proof.
  intros H. unfold of_int.
  assert (0 < inject_Z z) as P
    by (change 0 with (inject_Z 0); rewrite <- Zlt_Qlt; lia).
  assert (round_pos (inject_Z z) == inject_Z z) as E.
  { apply (round_pos_exact _ z 0); [assumption | unfold emin; lia |].
    change (pow2 0) with 1. ring. }
  exists (Qred (round_pos (inject_Z z))). split.
  - apply round_pos_real; [assumption | rewrite E; assumption |].
    rewrite E. eapply Qle_lt_trans; [|apply (pow2_lt 24); unfold emax; lia].
    rewrite (pow2_Z 24) by lia. rewrite <- Zle_Qle. lia.
  - now rewrite Qred_correct.
Qed.

End Rounding.

(** ** Range and dimension sizing *)

Lemma bind_Ret {A B} (m : outcome A) (k : A -> outcome B) r :
  bind m k = Ret r -> exists a, m = Ret a /\ k a = Ret r.
Proof. destruct m; simpl; intros H; try discriminate. eauto. Qed.

Ltac invert_bind H :=
  let a := fresh "a" in
  let E := fresh "E" in
  apply bind_Ret in H; destruct H as (a & E & H).

Lemma Qtrunc_nonneg q : (0 <= q)%Q -> Qtrunc q = Qfloor q.
Proof.
  destruct q as [n d]. unfold Qle, Qtrunc, Qfloor. simpl. intros H.
  apply Z.quot_div_nonneg; lia.
Qed.

Lemma Qtrunc_nonpos q : (q <= 0)%Q -> Qtrunc q = Qceiling q.
Proof.
  destruct q as [n d]. unfold Qle, Qtrunc, Qceiling, Qfloor. simpl. intros H.
  rewrite <- (Z.opp_involutive n) at 1. rewrite Z.quot_opp_l by lia.
  f_equal. apply Z.quot_div_nonneg; lia.
Qed.

Lemma Qtrunc_comp q1 q2 : (q1 == q2)%Q -> Qtrunc q1 = Qtrunc q2.
Proof.
  intros E. destruct (Qlt_le_dec q1 0) as [H|H].
  - rewrite !Qtrunc_nonpos.
    + now rewrite E.
    + rewrite <- E. now apply Qlt_le_weak.
    + now apply Qlt_le_weak.
  - rewrite !Qtrunc_nonneg.
    + now rewrite E.
    + now rewrite <- E.
    + exact H.
Qed.

Lemma Qtrunc_inject_Z z : Qtrunc (inject_Z z) = z.
Proof. unfold Qtrunc. simpl. apply Z.quot_1_r. Qed.

Lemma Qfloor_neg q : (q < 0)%Q -> Qfloor q < 0.
Proof.
  intros H. pose proof (Qfloor_le q) as L.
  assert (inject_Z (Qfloor q) < 0)%Q as K by (eapply Qle_lt_trans; eauto).
  unfold Qlt in K. simpl in K. lia.
Qed.

Lemma Qceiling_nonpos q : (q <= 0)%Q -> Qceiling q <= 0.
Proof.
  intros H. unfold Qceiling.
  assert (0 <= - q)%Q as K by (apply (Qopp_le_compat q 0) in H; exact H).
  apply Qfloor_resp_le in K. change (Qfloor 0) with 0 in K. lia.
Qed.

(** Below zero the two roundings differ, but not once clamped from
    below. *)
Lemma trunc_floor_clamped q m :
  0 <= m -> Z.max (Qtrunc q) m = Z.max (Qfloor q) m.
Proof.
  intros Hm. destruct (Qlt_le_dec q 0) as [H|H].
  - pose proof (Qfloor_neg q H).
    rewrite Qtrunc_nonpos by now apply Qlt_le_weak.
    pose proof (Qceiling_nonpos q (Qlt_le_weak _ _ H)). lia.
  - now rewrite Qtrunc_nonneg.
Qed.

Lemma floor_trunc_clamped q m :
  0 <= m -> Z.max m (Qtrunc q) = Z.max m (Qfloor q).
Proof. intros. rewrite !(Z.max_comm m). now apply trunc_floor_clamped. Qed.

Lemma int_of_float_Ret x r :
  int_of_float x = Ret r <->
  exists q, Float.real x = Some q /\ Int.in_int (Qtrunc q) /\ r = Qtrunc q.
Proof.
  unfold int_of_float. split.
  - destruct (Float.real x) as [q|]; [|discriminate].
    intros H. apply checked_Ret in H as [-> I]. eauto.
  - intros (q & -> & I & ->). now apply checked_in_int.
Qed.

Lemma int_of_float_real x q :
  Float.real x = Some q -> Int.in_int (Qtrunc q) ->
  int_of_float x = Ret (Qtrunc q).
Proof. intros E I. unfold int_of_float. rewrite E. now apply checked_in_int. Qed.

(** [compute_range], axis by axis. *)
Lemma compute_range_unfold dims g o :
  compute_range dims g o =
  (tlx <- int_of_float (to_grid (vec_x dims) (vec_x (bb_min g)) (vec_x (bb_max g)) (vec_x (bb_min o))) ;;
   tly <- int_of_float (to_grid (vec_y dims) (vec_y (bb_min g)) (vec_y (bb_max g)) (vec_y (bb_min o))) ;;
   tlz <- int_of_float (to_grid (vec_z dims) (vec_z (bb_min g)) (vec_z (bb_max g)) (vec_z (bb_min o))) ;;
   thx <- int_of_float (to_grid (vec_x dims) (vec_x (bb_min g)) (vec_x (bb_max g)) (vec_x (bb_max o))) ;;
   mx <- checked (vec_x dims - 1) ;;
   thy <- int_of_float (to_grid (vec_y dims) (vec_y (bb_min g)) (vec_y (bb_max g)) (vec_y (bb_max o))) ;;
   my <- checked (vec_y dims - 1) ;;
   thz <- int_of_float (to_grid (vec_z dims) (vec_z (bb_min g)) (vec_z (bb_max g)) (vec_z (bb_max o))) ;;
   mz <- checked (vec_z dims - 1) ;;
   Ret (mk_Range (Z.max tlx 0) (Z.max tly 0) (Z.max tlz 0)
                 (Z.min thx mx) (Z.min thy my) (Z.min thz mz))).
Proof. reflexivity. Qed.

Lemma axis_bounds_intro dim g0 g1 o0 o1 t0 t1 :
  Float.real (to_grid dim g0 g1 o0) = Some t0 ->
  Float.real (to_grid dim g0 g1 o1) = Some t1 ->
  Int.in_int (Qtrunc t0) -> Int.in_int (Qtrunc t1) -> Int.in_int (dim - 1) ->
  axis_bounds dim g0 g1 o0 o1
    (Z.max (Qtrunc t0) 0) (Z.min (Qtrunc t1) (dim - 1)).
Proof.
  intros E0 E1 I0 I1 Id. exists t0, t1.
  repeat (split; [assumption|]).
  split; [apply trunc_floor_clamped; lia|].
  split; [reflexivity|].
  intros H. now rewrite Qtrunc_nonneg.
Qed.




Section AxisFull.

Import Float.
Local Open Scope Q_scope.

Variable dim : Z.
Variables g0 g1 : Float.t.
Variables d e : Q.
Hypothesis Hdim : (1 <= dim <= 2 ^ 23)%Z.
Hypothesis Hd : d == inject_Z dim.
Hypothesis He : 0 < e < pow2 emax.

Lemma scale_pos : 0 < d / e.
Proof.
  assert (0 < d).
  { rewrite Hd. change 0 with (inject_Z 0). rewrite <- Zlt_Qlt. lia. }
  apply Qlt_shift_div_l; lra.
Qed.

Lemma dim_bounds : 1 <= d <= 8388608.
Proof.
  rewrite Hd. change 1 with (inject_Z 1).
  change 8388608 with (inject_Z (2 ^ 23)). rewrite <- !Zle_Qle. lia.
Qed.

(** The scale factor times the extent is within a half of [dim]. *)
Lemma scale_extent_bounds :
  d - (1 # 2) <= round_pos (d / e) * e <= d + (1 # 2).
Proof.
  pose proof scale_pos as Pq. pose proof dim_bounds as [D1 D2].
  destruct He as [E0 E1].
  assert (d / e * e == d) as Eq by (field; lra).
  set (q := d / e) in *.
  change (pow2 emax) with (inject_Z (2 ^ 128)) in E1.
  destruct (round_pos_error_cases q Pq) as [[L U] | [L U]].
  - change (pow2 (-24)) with (1 # 16777216) in L, U.
    apply (Qmult_le_compat_r _ _ e) in L; [|lra].
    apply (Qmult_le_compat_r _ _ e) in U; [|lra].
    assert ((q - q * (1 # 16777216)) * e == d - d * (1 # 16777216)) as EL
      by (rewrite <- Eq; ring).
    assert ((q + q * (1 # 16777216)) * e == d + d * (1 # 16777216)) as EU
      by (rewrite <- Eq; ring).
    rewrite EL in L. rewrite EU in U.
    set (P := round_pos q * e) in *. clearbody P. split; lra.
  - set (c := pow2 (-150)) in *.
    assert (0 < c) as C0 by apply pow2_pos.
    assert (c * inject_Z (2 ^ 128) <= 1 # 2) as C1 by (vm_compute; discriminate).
    apply (Qmult_le_compat_r _ _ e) in L; [|lra].
    apply (Qmult_le_compat_r _ _ e) in U; [|lra].
    assert ((q - c) * e == d - c * e) as EL by (rewrite <- Eq; ring).
    assert ((q + c) * e == d + c * e) as EU by (rewrite <- Eq; ring).
    rewrite EL in L. rewrite EU in U.
    assert (c * e <= c * inject_Z (2 ^ 128)) as B.
    { rewrite !(Qmult_comm c). apply Qmult_le_compat_r; lra. }
    set (P := round_pos q * e) in *. set (ce := c * e) in *.
    set (cm := c * inject_Z (2 ^ 128)) in *. clearbody P ce cm. split; lra.
Qed.

(** The scale factor is a positive float. *)
Lemma scale_real :
  finite (round (d / e)) ->
  round (d / e) = Fin (Qred (round_pos (d / e))) /\ 0 < round_pos (d / e).
Proof.
  intros F. pose proof scale_pos as Pq. pose proof dim_bounds as [D1 D2].
  destruct scale_extent_bounds as [L _]. destruct He as [E0 _].
  assert (0 < round_pos (d / e)) as P.
  { apply Qnot_le_lt. intros C.
    assert (round_pos (d / e) * e <= 0 * e) as K
      by (apply Qmult_le_compat_r; lra).
    lra. }
  split; [|exact P]. rewrite round_of_pos in * by assumption.
  destruct (round_mag_cases false (d / e) Pq) as [[C _] | [[_ C] | [C _]]].
  - rewrite C in F. destruct F.
  - lra.
  - exact C.
Qed.

(** The far end of the grid interval is within a half of [dim]. *)
Lemma far_end_real v :
  v == round_pos (d / e) ->
  exists t,
    real (round (e * v)) = Some t /\ d - (1 # 2) <= t <= d + (1 # 2).
Proof.
  intros Ev. pose proof dim_bounds as [D1 D2].
  destruct scale_extent_bounds as [L U].
  assert (e * v == round_pos (d / e) * e) as Ep by (rewrite Ev; ring).
  rewrite (round_comp _ _ Ep).
  set (P := round_pos (d / e) * e) in *. clearbody P.
  assert (0 < P) as P0 by lra.
  assert (round_pos (d - (1 # 2)) == d - (1 # 2)) as Xl.
  { apply (round_pos_exact _ (2 * dim + -1) (-1));
      [lia | unfold emin; lia |].
    rewrite Hd, inject_Z_plus, inject_Z_mult.
    change (pow2 (-1)) with (1 # 2). change (inject_Z (-1)) with (-1 # 1).
    change (inject_Z 2) with 2. ring. }
  assert (round_pos (d + (1 # 2)) <= d + (1 # 2)) as Xu.
  { destruct (Z.eq_dec dim (2 ^ 23)) as [E|E].
    - assert (d + (1 # 2) == 16777217 # 2) as Ed
        by (rewrite Hd, E; reflexivity).
      assert (0 < d + (1 # 2)) as Pd by lra.
      rewrite (round_pos_comp _ _ Pd Ed), Ed.
      vm_compute. discriminate.
    - apply Qle_lteq. right.
      apply (round_pos_exact _ (2 * dim + 1) (-1));
        [lia | unfold emin; lia |].
      rewrite Hd, inject_Z_plus, inject_Z_mult.
      change (pow2 (-1)) with (1 # 2). change (inject_Z 1) with 1.
      change (inject_Z 2) with 2. ring. }
  assert (d - (1 # 2) <= round_pos P) as RL
    by (rewrite <- Xl; apply round_pos_mono; lra).
  assert (round_pos P <= d + (1 # 2)) as RU.
  { eapply Qle_trans; [|exact Xu]. apply round_pos_mono; assumption. }
  exists (Qred (round_pos P)). split.
  - rewrite round_pos_real; [reflexivity | assumption | lra |].
    eapply Qle_lt_trans; [exact RU|].
    apply (Qlt_le_trans _ 8388609); [lra|]. vm_compute. discriminate.
  - rewrite Qred_correct. split; assumption.
Qed.

End AxisFull.


(** What [compute_range] returns, axis by axis. *)
Lemma compute_range_axes dims grid_bb obj_bb r :
  compute_range dims grid_bb obj_bb = Ret r ->
  axis_bounds (vec_x dims) (vec_x (bb_min grid_bb)) (vec_x (bb_max grid_bb))
    (vec_x (bb_min obj_bb)) (vec_x (bb_max obj_bb)) (lx r) (hx r) /\
  axis_bounds (vec_y dims) (vec_y (bb_min grid_bb)) (vec_y (bb_max grid_bb))
    (vec_y (bb_min obj_bb)) (vec_y (bb_max obj_bb)) (ly r) (hy r) /\
  axis_bounds (vec_z dims) (vec_z (bb_min grid_bb)) (vec_z (bb_max grid_bb))
    (vec_z (bb_min obj_bb)) (vec_z (bb_max obj_bb)) (lz r) (hz r).
Proof.
  rewrite compute_range_unfold. intros H. do 9 invert_bind H.
  repeat match goal with
         | E : int_of_float _ = Ret _ |- _ =>
             apply int_of_float_Ret in E; destruct E as (? & ? & ? & ->)
         | E : checked _ = Ret _ |- _ =>
             apply checked_Ret in E; destruct E as [-> ?]
         end.
  injection H as <-. cbn [lx ly lz hx hy hz].
  split; [|split]; now apply axis_bounds_intro.
Qed.




(** A float times 1 is itself. *)
Lemma mul_one x q :
  Float.valid x -> Float.real x = Some q ->
  exists q', Float.real (Float.mul x (Float.Fin 1)) = Some q' /\ (q' == q)%Q.
Proof.
  destruct x as [s|v|s|]; cbn [Float.valid Float.real Float.mul];
    intros V H; try discriminate; injection H as <-.
  - exists 0%Q. split; reflexivity.
  - exists v. rewrite (round_comp (v * 1) v) by ring. rewrite V.
    split; reflexivity.
Qed.

Lemma int_of_float_mul_one x q :
  Float.valid x -> Float.real x = Some q -> Int.in_int (Qtrunc q) ->
  int_of_float (Float.mul x (Float.Fin 1)) = Ret (Qtrunc q).
Proof.
  intros V R I. destruct (mul_one x q V R) as (q' & R' & E).
  rewrite <- (Qtrunc_comp _ _ E) in *. now apply int_of_float_real.
Qed.

(** 8 primitives of density 1 in a volume of 8: the argument of the cube
    root is 1. *)
Lemma unit_density volume v :
  Float.real volume = Some v -> (v == 8)%Q ->
  Float.div (Float.mul (Float.of_Q 1) (Float.of_int 8)) volume = Float.of_Q 1.
Proof.
  intros R E.
  assert (Float.mul (Float.of_Q 1) (Float.of_int 8) = Float.Fin 8) as ->
    by (vm_compute; reflexivity).
  destruct volume as [s|w|s|]; cbn [Float.real] in R; try discriminate;
    injection R as <-.
  - exfalso. revert E. unfold Qeq. simpl. lia.
  - cbn [Float.div]. unfold Float.of_Q.
    apply round_comp. rewrite E. reflexivity.
Qed.

Section GridDimsFacts.

Variable cbrtf : Float.t -> Float.t.

(** C8.  [compute_grid_dims] returns exactly when the three products of an
    extent and [ratio = cbrt(density * num_prims / volume)], every
    operation rounded to the nearest float, are numbers whose integer parts
    fit an [int]; each component of the dimensions it returns is then that
    product floored, or 1 if that is less, hence at least 1.  When
    [ratio] is 1, as it is for 8 primitives of density 1 in a box of
    volume 8 if the cube root of 1 is 1, the dimensions are the floored
    extents clamped to at least 1. *)
Theorem compute_grid_dims_clamped (bb : BBox) (num_prims : Z)
  (density : Float.t) :
  let ex := Float.sub (vec_x (bb_max bb)) (vec_x (bb_min bb)) in
  let ey := Float.sub (vec_y (bb_max bb)) (vec_y (bb_min bb)) in
  let ez := Float.sub (vec_z (bb_max bb)) (vec_z (bb_min bb)) in
  let volume := Float.mul (Float.mul ex ey) ez in
  let ratio :=
    cbrtf (Float.div (Float.mul density (Float.of_int num_prims)) volume) in
  (forall d,
     compute_grid_dims cbrtf bb num_prims density = Ret d <->
     exists tx ty tz,
       Float.real (Float.mul ex ratio) = Some tx /\
       Float.real (Float.mul ey ratio) = Some ty /\
       Float.real (Float.mul ez ratio) = Some tz /\
       Int.in_int (Qtrunc tx) /\ Int.in_int (Qtrunc ty) /\
       Int.in_int (Qtrunc tz) /\
       d = mk_vec (Z.max 1 (Qfloor tx)) (Z.max 1 (Qfloor ty))
                  (Z.max 1 (Qfloor tz))) /\
  (forall d,
     compute_grid_dims cbrtf bb num_prims density = Ret d ->
     1 <= vec_x d /\ 1 <= vec_y d /\ 1 <= vec_z d) /\
  (forall qx qy qz,
     Float.real ex = Some qx -> Float.real ey = Some qy ->
     Float.real ez = Some qz ->
     Int.in_int (Qtrunc qx) -> Int.in_int (Qtrunc qy) ->
     Int.in_int (Qtrunc qz) ->
     ratio = Float.of_Q 1 \/
     (num_prims = 8 /\ density = Float.of_Q 1 /\
      (exists v, Float.real volume = Some v /\ (v == 8)%Q) /\
      cbrtf (Float.of_Q 1) = Float.of_Q 1) ->
     compute_grid_dims cbrtf bb num_prims density =
     Ret (mk_vec (Z.max 1 (Qfloor qx)) (Z.max 1 (Qfloor qy))
                 (Z.max 1 (Qfloor qz)))).
Proof.
  intros ex ey ez volume ratio.
  assert (compute_grid_dims cbrtf bb num_prims density =
          (dx <- int_of_float (Float.mul ex ratio) ;;
           dy <- int_of_float (Float.mul ey ratio) ;;
           dz <- int_of_float (Float.mul ez ratio) ;;
           Ret (mk_vec (Z.max 1 dx) (Z.max 1 dy) (Z.max 1 dz)))) as U
    by reflexivity.
  rewrite U. clear U. split; [|split].
  - intros d. split.
    + intros H. do 3 invert_bind H.
      repeat match goal with
             | E : int_of_float _ = Ret _ |- _ =>
                 apply int_of_float_Ret in E; destruct E as (? & ? & ? & ->)
             end.
      injection H as <-. rewrite !floor_trunc_clamped by lia.
      do 3 eexists. repeat (split; [eassumption|]). reflexivity.
    + intros (tx & ty & tz & Rx & Ry & Rz & Ix & Iy & Iz & ->).
      rewrite (int_of_float_real _ _ Rx Ix), (int_of_float_real _ _ Ry Iy),
        (int_of_float_real _ _ Rz Iz). cbn [bind].
      now rewrite !floor_trunc_clamped by lia.
  - intros d H. do 3 invert_bind H. injection H as <-.
    cbn [vec_x vec_y vec_z]. lia.
  - intros qx qy qz Rx Ry Rz Ix Iy Iz H.
    assert (ratio = Float.Fin 1) as ->.
    { destruct H as [H | (-> & -> & (v & Rv & Ev) & C)]; [exact H|].
      unfold ratio. now rewrite (unit_density volume v Rv Ev). }
    rewrite (int_of_float_mul_one ex qx), (int_of_float_mul_one ey qy),
      (int_of_float_mul_one ez qz);
      try assumption; try apply sub_valid.
    cbn [bind]. now rewrite !floor_trunc_clamped by lia.
Qed.

End GridDimsFacts.

(** A box of extents [1/2], 4 and 4 with 8 primitives of density 1 gets the
    dimensions 1, 4 and 4; a box of extents 1, 2 and 4 with 64 primitives,
    for which [ratio] is 2, gets the dimensions 2, 4 and 8. *)
Lemma compute_grid_dims_clamped_witness :
  compute_grid_dims cbrtf_of_cubes flat_bbox 8 (Float.of_Q 1) =
  Ret (mk_vec 1 4 4) /\
  compute_grid_dims cbrtf_of_cubes slab_bbox 64 (Float.of_Q 1) =
  Ret (mk_vec 2 4 8).
Proof.
  assert (forall z, -8 <= z <= 8 -> Int.in_int z) as I
    by (unfold Int.in_int, Int.min_int, Int.max_int; intros; lia).
  split.
  - refine (proj2 (proj2 (compute_grid_dims_clamped cbrtf_of_cubes
                            flat_bbox 8 (Float.of_Q 1)))
              (1 # 2)%Q 4%Q 4%Q _ _ _ _ _ _ _).
    + vm_compute. reflexivity.
    + vm_compute. reflexivity.
    + vm_compute. reflexivity.
    + apply I. vm_compute. split; discriminate.
    + apply I. vm_compute. split; discriminate.
    + apply I. vm_compute. split; discriminate.
    + right. split; [reflexivity|]. split; [reflexivity|].
      split; [|vm_compute; reflexivity].
      exists 8%Q. split; vm_compute; reflexivity.
  - apply (proj1 (compute_grid_dims_clamped cbrtf_of_cubes
                    slab_bbox 64 (Float.of_Q 1))).
    exists 2%Q, 4%Q, 8%Q.
    split; [vm_compute; reflexivity|].
    split; [vm_compute; reflexivity|].
    split; [vm_compute; reflexivity|].
    split; [apply I; vm_compute; split; discriminate|].
    split; [apply I; vm_compute; split; discriminate|].
    split; [apply I; vm_compute; split; discriminate|].
    vm_compute. reflexivity.
Defined.

(** ** Hierarchical lookup *)

Lemma In_Zrange n z : In z (Zrange n) <-> 0 <= z < n.
Proof.
  unfold Zrange. rewrite in_map_iff. split.
  - intros (i & <- & Hi). apply in_seq in Hi. lia.
  - intros H. exists (Z.to_nat z). split; [lia|]. apply in_seq. lia.
Qed.

Lemma In_coords nx ny nz k :
  In k (coords nx ny nz) <->
  0 <= vec_x k < nx /\ 0 <= vec_y k < ny /\ 0 <= vec_z k < nz.
Proof.
  unfold coords. rewrite in_flat_map. split.
  - intros (z & Hz & H). apply in_flat_map in H as (y & Hy & H).
    apply in_map_iff in H as (x & <- & Hx).
    apply In_Zrange in Hx, Hy, Hz. simpl. lia.
  - intros (Hx & Hy & Hz). destruct k as [x y z]. simpl in *.
    exists z. split; [now apply In_Zrange|]. apply in_flat_map.
    exists y. split; [now apply In_Zrange|]. apply in_map_iff.
    exists x. split; [reflexivity | now apply In_Zrange].
Qed.

Lemma okb_ok e : Entry.okb e = true -> Entry.ok e.
Proof.
  unfold Entry.okb, Entry.ok. rewrite !andb_true_iff, !Z.leb_le, !Z.ltb_lt.
  tauto.
Qed.

Lemma ok_bounds e :
  Entry.ok e -> 0 <= Entry.log_dim e <= 3 /\ 0 <= Entry.begin e < 2 ^ 30.
Proof.
  unfold Entry.ok, Entry.BEGIN_BITS, Entry.LOG_DIM_BITS.
  change (2 ^ 2) with 4. change (2 ^ (32 - 2)) with (2 ^ 30). lia.
Qed.

(** The mask [(1 << l) - 1] keeps the low [l] bits. *)
Lemma land_mask a l : 0 <= l -> Z.land a (Z.shiftl 1 l - 1) = a mod 2 ^ l.
Proof.
  intros H. rewrite <- Z.land_ones by assumption. reflexivity.
Qed.

Lemma masked_shift s l v :
  0 <= s -> 0 <= l ->
  vec_map (fun a => Z.land a (Z.shiftl 1 l - 1))
          (vec_map (fun a => Z.shiftr a s) v) = local_coord s l v.
Proof.
  intros Hs Hl. unfold local_coord, vec_map. cbn [vec_x vec_y vec_z].
  now rewrite !land_mask, !Z.shiftr_div_pow2.
Qed.

Lemma local_coord_range s l v :
  0 <= l -> In (local_coord s l v) (coords (2 ^ l) (2 ^ l) (2 ^ l)).
Proof.
  intros Hl. apply In_coords. unfold local_coord. cbn [vec_map vec_x vec_y vec_z].
  assert (0 < 2 ^ l) by (apply Z.pow_pos_nonneg; lia).
  repeat split; apply Z.mod_pos_bound; assumption.
Qed.

(** The offset of a child is its local coordinate flattened, and lies in
    the block of [8^l] entries. *)
Lemma child_offset_flat l k :
  0 <= l ->
  child_offset l k = vec_x k + 2 ^ l * (vec_y k + 2 ^ l * vec_z k).
Proof.
  intros Hl. unfold child_offset. rewrite !Z.shiftl_mul_pow2 by assumption. ring.
Qed.

Lemma child_offset_range l k :
  0 <= l <= 3 -> In k (coords (2 ^ l) (2 ^ l) (2 ^ l)) ->
  0 <= child_offset l k < 512.
Proof.
  intros Hl Hk. apply In_coords in Hk. rewrite child_offset_flat by lia.
  assert (0 < 2 ^ l <= 8).
  { split; [apply Z.pow_pos_nonneg; lia|].
    change 8 with (2 ^ 3). apply Z.pow_le_mono_r; lia. }
  nia.
Qed.

(** One axis of the descent: within an aligned interval of length
    [2^(s + l)], bits [s] to [s + l - 1] of [v] number the aligned
    sub-interval of length [2^s] that holds [v]. *)
Lemma local_coord_axis s l o v :
  0 <= s -> 0 <= l ->
  (2 ^ (s + l) | o) -> o <= v < o + 2 ^ (s + l) ->
  let k := (v / 2 ^ s) mod 2 ^ l in
  o + k * 2 ^ s <= v < o + k * 2 ^ s + 2 ^ s /\ (2 ^ s | o + k * 2 ^ s).
Proof.
  intros Hs Hl [m ->] Hv. rewrite Z.pow_add_r in * by assumption.
  assert (0 < 2 ^ s) as Ps by (apply Z.pow_pos_nonneg; lia).
  assert (0 < 2 ^ l) as Pl by (apply Z.pow_pos_nonneg; lia).
  assert (exists r, v = r + (m * 2 ^ l) * 2 ^ s /\ 0 <= r < 2 ^ s * 2 ^ l)
    as (r & -> & Hr).
  { exists (v - m * (2 ^ s * 2 ^ l)). split; [ring | lia]. }
  rewrite Z.div_add by lia.
  rewrite Z.add_mod, Z.mod_mul, Z.add_0_r, Z.mod_mod by lia.
  assert (0 <= r / 2 ^ s < 2 ^ l) as Hq.
  { split; [apply Z.div_pos; lia|]. apply Z.div_lt_upper_bound; lia. }
  rewrite (Z.mod_small (r / 2 ^ s)) by assumption.
  pose proof (Z.div_mod r (2 ^ s) ltac:(lia)) as Hdm.
  pose proof (Z.mod_pos_bound r (2 ^ s) Ps) as Hm.
  cbv zeta. split; [nia|].
  exists (m * 2 ^ l + r / 2 ^ s). ring.
Qed.

Lemma wf_params_spec shift dims :
  wf_params shift dims = true ->
  0 <= shift < 32 /\
  0 < vec_x dims /\ 0 < vec_y dims /\ 0 < vec_z dims /\
  vec_x dims * vec_y dims * vec_z dims <= Int.max_int.
Proof.
  unfold wf_params. rewrite !andb_true_iff, !Z.leb_le, !Z.ltb_lt. tauto.
Qed.

Section LookupFacts.

Variable entries : list Entry.t.
Variable shift : Z.
Hypothesis Hshift : 0 <= shift < 32.
Variable voxel : ivec3.

Lemma lookup_loop_leaf fuel e d :
  Entry.log_dim e = 0 ->
  lookup_loop fuel entries shift voxel e (Entry.log_dim e) d =
  Ret (Entry.begin e).
Proof. intros ->. destruct fuel; reflexivity. Qed.

(** One turn of the loop on an internal entry that sits at depth [d]. *)
Lemma lookup_loop_step fuel e d :
  Entry.ok e -> Entry.log_dim e <> 0 ->
  0 <= d -> d + Entry.log_dim e <= shift ->
  lookup_loop (S fuel) entries shift voxel e (Entry.log_dim e)
              (d + Entry.log_dim e) =
  (entry <- read entries
              (Entry.begin e +
               child_offset (Entry.log_dim e)
                 (local_coord (shift - (d + Entry.log_dim e))
                              (Entry.log_dim e) voxel)) ;;
   lookup_loop fuel entries shift voxel entry (Entry.log_dim entry)
               (Int.to_uint (d + Entry.log_dim e + Entry.log_dim entry))).
Proof.
  intros Hok Hl Hd Hdl. apply ok_bounds in Hok as [Hl3 Hb].
  set (l := Entry.log_dim e) in *.
  cbn [lookup_loop]. destruct (Z.eqb_spec l 0); [contradiction|].
  assert (Int.to_int (Int.to_uint (shift - (d + l))) = shift - (d + l)) as ->.
  { apply to_int_to_uint.
    unfold Int.in_int, Int.min_int, Int.max_int. lia. }
  unfold shift_right.
  destruct (Z.leb_spec 0 (shift - (d + l))); [|lia].
  destruct (Z.ltb_spec (shift - (d + l)) 32); [|lia].
  cbn [andb bind]. rewrite masked_shift by lia.
  assert (0 <= l) as Hl0 by lia.
  pose proof (child_offset_range l (local_coord (shift - (d + l)) l voxel)
                ltac:(lia) (local_coord_range (shift - (d + l)) l voxel Hl0)).
  rewrite to_uint_small by (unfold Int.in_uint; lia).
  reflexivity.
Qed.

Section Descent.

Variable leaf_ok : Z -> ivec3 -> Entry.t -> bool.

(** What [wf_node] says of the entry at [i]. *)
Lemma wf_node_inv n d o i :
  wf_node entries shift leaf_ok n d o i = true ->
  exists e,
    get entries i = Some e /\ Entry.ok e /\
    ((Entry.log_dim e = 0 /\ leaf_ok d o e = true) \/
     (Entry.log_dim e <> 0 /\
      exists n', n = S n' /\ d + Entry.log_dim e <= shift /\
        forall k,
          In k (coords (2 ^ Entry.log_dim e) (2 ^ Entry.log_dim e)
                       (2 ^ Entry.log_dim e)) ->
          wf_node entries shift leaf_ok n' (d + Entry.log_dim e)
            (vec_add o (vec_scale k (2 ^ (shift - (d + Entry.log_dim e)))))
            (Entry.begin e + child_offset (Entry.log_dim e) k) = true)).
Proof.
  destruct n as [|n]; cbn [wf_node];
    destruct (get entries i) as [e|]; try discriminate;
    intros H; apply andb_true_iff in H as [Hok H];
    exists e; (split; [reflexivity|]); (split; [now apply okb_ok|]);
    destruct (Z.eqb_spec (Entry.log_dim e) 0) as [E|E];
    try (left; now split); try discriminate.
  right. split; [assumption|]. exists n.
  apply andb_true_iff in H as [Hd H]. apply Z.leb_le in Hd.
  rewrite forallb_forall in H. auto.
Qed.


End Descent.

Section Cells.

Variable cells : list Bounds.

Lemma cube_in_cell_spec d o e :
  cube_in_cell cells shift d o e = true ->
  exists c,
    get cells (Entry.begin e) = Some c /\
    forall v, in_cube o (2 ^ (shift - d)) v -> in_cell c v.
Proof.
  unfold cube_in_cell. destruct (get cells (Entry.begin e)) as [c|];
    [|discriminate].
  rewrite !andb_true_iff, !Z.leb_le. intros H. exists c.
  split; [reflexivity|]. unfold in_cube, in_cell. intros v. lia.
Qed.

(** From a well-formed entry whose cube holds the voxel, the loop returns
    the index of a cell that holds the voxel. *)
Lemma lookup_loop_finds n :
  forall d o i e fuel,
    wf_node entries shift (cube_in_cell cells shift) n d o i = true ->
    0 <= d <= shift ->
    aligned (2 ^ (shift - d)) o -> in_cube o (2 ^ (shift - d)) voxel ->
    get entries i = Some e -> (n <= fuel)%nat ->
    exists j c,
      lookup_loop fuel entries shift voxel e (Entry.log_dim e)
                  (d + Entry.log_dim e) = Ret j /\
      get cells j = Some c /\ in_cell c voxel.
Proof.
  induction n as [|n IH]; intros d o i e fuel W Hd Ha Hv G Hfuel;
    apply wf_node_inv in W as (e0 & G0 & Hok & [[L K] | (L & n' & N & Hdl & C)]);
    rewrite G in G0; injection G0 as <-;
    try (rewrite lookup_loop_leaf by assumption;
         apply cube_in_cell_spec in K as (c & Gc & Hc);
         exists (Entry.begin e), c; auto);
    try discriminate.
  injection N as <-. destruct fuel as [|fuel]; [lia|].
  rewrite lookup_loop_step by (assumption || lia).
  pose proof (ok_bounds e Hok) as [Hl _].
  set (l := Entry.log_dim e) in *. set (s := shift - (d + l)) in *.
  set (k := local_coord s l voxel).
  assert (0 <= l) as Hl0 by lia.
  specialize (C k (local_coord_range s l voxel Hl0)).
  destruct (wf_node_inv _ _ _ _ _ C) as (e' & G' & Hok' & _).
  unfold read. rewrite G'. cbn [bind].
  pose proof (ok_bounds e' Hok') as [Hl' _].
  rewrite to_uint_small by (unfold Int.in_uint; lia).
  replace (shift - d) with (s + l) in Ha, Hv by (unfold s; lia).
  destruct Ha as (Ax & Ay & Az). destruct Hv as (Vx & Vy & Vz).
  assert (0 <= s) as Hs by (unfold s; lia).
  pose proof (local_coord_axis s l _ _ Hs Hl0 Ax Vx) as [Cx Bx].
  pose proof (local_coord_axis s l _ _ Hs Hl0 Ay Vy) as [Cy By].
  pose proof (local_coord_axis s l _ _ Hs Hl0 Az Vz) as [Cz Bz].
  apply (IH (d + l) (vec_add o (vec_scale k (2 ^ s)))
            (Entry.begin e + child_offset l k) e' fuel);
    try assumption; try lia.
  - unfold aligned, vec_all. fold s. cbn. auto.
  - unfold in_cube. fold s. cbn. auto.
Qed.

End Cells.

(** Without any assumption on the shape of the voxel map, as long as the
    entries hold bit-field values, the loop returns or meets undefined
    behaviour: the depth [d] grows at each turn, and a turn with
    [d > shift] shifts by a negative amount. *)
Lemma lookup_loop_bounded fuel :
  forall e d,
    Forall Entry.ok entries -> Entry.ok e ->
    0 <= d <= shift + 3 ->
    (0 < fuel)%nat -> shift - d + 2 <= Z.of_nat fuel ->
    lookup_loop fuel entries shift voxel e (Entry.log_dim e) d <> Timeout.
Proof.
  induction fuel as [|fuel IH]; intros e d Hall Hok Hd Hpos Hfuel; [lia|].
  cbn [lookup_loop]. destruct (Z.eqb_spec (Entry.log_dim e) 0); [discriminate|].
  unfold shift_right.
  destruct (Z.le_gt_cases d shift) as [Hle|Hgt].
  - rewrite to_int_to_uint
      by (unfold Int.in_int, Int.min_int, Int.max_int; lia).
    destruct (Z.leb_spec 0 (shift - d)); [|lia].
    destruct (Z.ltb_spec (shift - d) 32); [|lia].
    cbn [andb bind]. unfold read.
    match goal with |- context [get entries ?i] =>
      destruct (get entries i) as [e'|] eqn:G end; [|discriminate].
    cbn [bind].
    assert (Entry.ok e') as Hok'.
    { unfold get in G. destruct (_ <? 0); [discriminate|].
      apply nth_error_In in G. rewrite Forall_forall in Hall. auto. }
    pose proof (ok_bounds e' Hok') as [Hl' _].
    rewrite to_uint_small by (unfold Int.in_uint; lia).
    destruct (Z.eq_dec (Entry.log_dim e') 0) as [E|E].
    + rewrite lookup_loop_leaf by assumption. discriminate.
    + apply IH; try assumption; lia.
  - assert (Int.to_int (Int.to_uint (shift - d)) = shift - d) as ->.
    { unfold Int.to_int, Int.to_uint. rewrite Zplus_mod_idemp_l.
      replace (shift - d + 2 ^ 31) with (shift - d + 2 ^ 31 + 0) by lia.
      rewrite Z.mod_small; lia. }
    destruct (Z.leb_spec 0 (shift - d)); [lia|]. discriminate.
Qed.

End LookupFacts.

Lemma cells_meet_sym a b : cells_meet a b = cells_meet b a.
Proof.
  unfold cells_meet.
  now rewrite !(Z.max_comm (_ (b_min a))), !(Z.min_comm (_ (b_max a))).
Qed.

Lemma in_cell_meet a b v : in_cell a v -> in_cell b v -> cells_meet a b = true.
Proof.
  unfold in_cell, cells_meet. intros Ha Hb.
  rewrite !andb_true_iff, !Z.leb_le. lia.
Qed.

Lemma cells_apart_nth cells :
  cells_apart cells = true ->
  forall i j a b,
    nth_error cells i = Some a -> nth_error cells j = Some b ->
    cells_meet a b = true -> i = j.
Proof.
  induction cells as [|c rest IH]; intros H i j a b Hi Hj M.
  - destruct i; discriminate.
  - cbn [cells_apart] in H. apply andb_true_iff in H as [Hc Hrest].
    rewrite forallb_forall in Hc.
    destruct i as [|i], j as [|j]; cbn [nth_error] in Hi, Hj.
    + reflexivity.
    + injection Hi as <-. apply nth_error_In in Hj.
      apply Hc in Hj. rewrite M in Hj. discriminate.
    + injection Hj as <-. apply nth_error_In in Hi.
      apply Hc in Hi. rewrite cells_meet_sym, M in Hi. discriminate.
    + f_equal. eapply IH; eauto.
Qed.

(** Disjoint cells: a voxel lies in one cell at most. *)
Lemma cells_apart_unique cells i j a b v :
  cells_apart cells = true ->
  get cells i = Some a -> get cells j = Some b ->
  in_cell a v -> in_cell b v -> i = j.
Proof.
  intros H Gi Gj Va Vb. unfold get in Gi, Gj.
  destruct (Z.ltb_spec i 0); [discriminate|].
  destruct (Z.ltb_spec j 0); [discriminate|].
  pose proof (cells_apart_nth cells H _ _ _ _ Gi Gj (in_cell_meet _ _ _ Va Vb)).
  lia.
Qed.

Lemma top_coord_in_domain shift dims v :
  0 <= shift -> in_domain shift dims v ->
  In (top_coord shift v) (coords (vec_x dims) (vec_y dims) (vec_z dims)) /\
  aligned (2 ^ shift) (vec_scale (top_coord shift v) (2 ^ shift)) /\
  in_cube (vec_scale (top_coord shift v) (2 ^ shift)) (2 ^ shift) v.
Proof.
  intros Hs (Hx & Hy & Hz).
  assert (0 < 2 ^ shift) as P by (apply Z.pow_pos_nonneg; lia).
  split; [|split].
  - apply In_coords. cbn.
    repeat split; try (apply Z.div_pos; lia);
      apply Z.div_lt_upper_bound; lia.
  - unfold aligned, vec_all. cbn. repeat split; apply Z.divide_factor_r.
  - unfold in_cube. cbn.
    pose proof (Z.div_mod (vec_x v) (2 ^ shift) ltac:(lia)).
    pose proof (Z.mod_pos_bound (vec_x v) (2 ^ shift) P).
    pose proof (Z.div_mod (vec_y v) (2 ^ shift) ltac:(lia)).
    pose proof (Z.mod_pos_bound (vec_y v) (2 ^ shift) P).
    pose proof (Z.div_mod (vec_z v) (2 ^ shift) ltac:(lia)).
    pose proof (Z.mod_pos_bound (vec_z v) (2 ^ shift) P).
    lia.
Qed.

(** The top-level index of a voxel whose top-level cell is in the grid. *)
Lemma top_index_in_grid shift dims v :
  wf_params shift dims = true ->
  In (top_coord shift v) (coords (vec_x dims) (vec_y dims) (vec_z dims)) ->
  top_index shift dims v = Ret (top_entry dims (top_coord shift v)).
Proof.
  intros W Ht. apply wf_params_spec in W as (Hs & Dx & Dy & Dz & Dm).
  apply In_coords in Ht as (Tx & Ty & Tz).
  unfold top_index, shift_right.
  destruct (Z.leb_spec 0 shift); [|lia].
  destruct (Z.ltb_spec shift 32); [|lia].
  cbn [andb bind vec_map vec_x vec_y vec_z].
  rewrite !Z.shiftr_div_pow2 by lia.
  unfold top_coord in *. cbn [vec_map vec_x vec_y vec_z] in *.
  set (tx := vec_x v / 2 ^ shift) in *.
  set (ty := vec_y v / 2 ^ shift) in *.
  set (tz := vec_z v / 2 ^ shift) in *.
  assert (0 <= vec_y dims * tz <= vec_y dims * (vec_z dims - 1)) by nia.
  assert (0 <= ty + vec_y dims * tz < vec_y dims * vec_z dims) by nia.
  assert (0 <= vec_x dims * (ty + vec_y dims * tz)
          <= vec_x dims * (vec_y dims * vec_z dims - 1)) by nia.
  assert (vec_y dims * vec_z dims <= vec_x dims * vec_y dims * vec_z dims) by nia.
  assert (forall z, 0 <= z <= Int.max_int -> Int.in_int z) as I
    by (unfold Int.in_int, Int.min_int, Int.max_int; intros; lia).
  rewrite (checked_in_int (vec_y dims * tz)) by (apply I; nia). cbn [bind].
  rewrite (checked_in_int (ty + vec_y dims * tz)) by (apply I; nia). cbn [bind].
  rewrite (checked_in_int (vec_x dims * _)) by (apply I; nia). cbn [bind].
  rewrite checked_in_int by (apply I; nia). reflexivity.
Qed.

Lemma wf_top_spec entries shift leaf_ok dims t :
  wf_top entries shift leaf_ok dims = true ->
  In t (coords (vec_x dims) (vec_y dims) (vec_z dims)) ->
  wf_node entries shift leaf_ok (Z.to_nat shift) 0
          (vec_scale t (2 ^ shift)) (top_entry dims t) = true.
Proof.
  unfold wf_top. rewrite forallb_forall. intros H Ht. exact (H t Ht).
Qed.

Lemma top_index_no_timeout shift dims v : top_index shift dims v <> Timeout.
Proof.
  unfold top_index, shift_right, checked.
  repeat match goal with
         | |- context [if ?b then _ else _] => destruct b; cbn [bind]
         end; discriminate.
Qed.




(** The active cell array, for either representation. *)
Lemma active_cells_full g i c :
  get (Grid.cells g) i = Some c ->
  get (active_cells g) i = Some (cell_bounds c).
Proof.
  unfold active_cells, get. destruct (i <? 0); [discriminate|].
  destruct (Grid.cells g) as [|c0 cs] eqn:E.
  - destruct (Z.to_nat i); discriminate.
  - intros H. now rewrite nth_error_map, H.
Qed.

Lemma active_cells_small g i sc :
  Grid.cells g = [] ->
  get (Grid.small_cells g) i = Some sc ->
  get (active_cells g) i = Some (small_cell_bounds sc).
Proof.
  unfold active_cells, get. intros ->. destruct (i <? 0); [discriminate|].
  intros H. now rewrite nth_error_map, H.
Qed.

(** C1.  In a well-formed grid, for every cell of the active cell array and
    every voxel within the inclusive bounds of that cell, [lookup_entry]
    returns the index of the cell. *)
Theorem lookup_entry_finds_cell (g : Grid.t) (i : Z) (c : Bounds)
  (voxel : ivec3) (fuel : nat) :
  wf_grid g = true ->
  get (active_cells g) i = Some c ->
  in_cell c voxel ->
  (Z.to_nat (Grid.shift g) <= fuel)%nat ->
  lookup_entry fuel (Grid.entries g) (Grid.shift g) (Grid.dims g) voxel =
  Ret i.
Proof.
  unfold wf_grid. rewrite !andb_true_iff.
  intros [[[Wp Wt] Wa] Wd] Gc Hc Hfuel.
  pose proof (wf_params_spec _ _ Wp) as (Hs & _).
  assert (in_domain (Grid.shift g) (Grid.dims g) voxel) as Hv.
  { rewrite forallb_forall in Wd.
    assert (In c (active_cells g)) as Hin.
    { unfold get in Gc. destruct (i <? 0); [discriminate|].
      now apply nth_error_In in Gc. }
    apply Wd in Hin. unfold cell_in_domain in Hin.
    rewrite !andb_true_iff, !Z.leb_le, !Z.ltb_lt in Hin.
    unfold in_cell in Hc. unfold in_domain.
    destruct Hin as [[[[[X0 X1] Y0] Y1] Z0] Z1].
    destruct Hc as ([? ?] & [? ?] & [? ?]).
    repeat split; eauto using Z.le_trans, Z.le_lt_trans. }
  destruct (top_coord_in_domain _ _ _ (proj1 Hs) Hv) as (Ht & Ha & Hcube).
  unfold lookup_entry. rewrite (top_index_in_grid _ _ _ Wp Ht). cbn [bind].
  pose proof (wf_top_spec _ _ _ _ _ Wt Ht) as W.
  destruct (wf_node_inv _ _ Hs _ _ _ _ _ W) as (e & G & _).
  unfold read. rewrite G. cbn [bind].
  destruct (lookup_loop_finds (Grid.entries g) (Grid.shift g) Hs voxel
              (active_cells g) _ 0 _ _ e fuel W) as (j & c' & R & Gj & Hj);
    try assumption; try lia;
    try (now rewrite Z.sub_0_r).
  cbv zeta. change (0 + Entry.log_dim e) with (Entry.log_dim e) in R.
  rewrite R. f_equal.
  exact (cells_apart_unique _ _ _ _ _ _ Wa Gj Gc Hj Hc).
Qed.

Lemma lookup_entry_finds_cell_witness :
  wf_grid sample_grid = true /\
  lookup_entry 2 (Grid.entries sample_grid) 2 (mk_vec 2 1 1) (mk_vec 1 0 1) =
  Ret 5.
Proof.
  assert (wf_grid sample_grid = true) as W by reflexivity.
  split; [exact W|].
  refine (lookup_entry_finds_cell sample_grid 5 (cell_bounds (box 1 0 0 1 1 1))
            (mk_vec 1 0 1) 2 W _ _ _).
  - reflexivity.
  - unfold in_cell. simpl. lia.
  - simpl. lia.
Defined.

(** * Further properties of the operations *)

(** ** Entries *)

(** X1.  [make_entry] always yields bit-field values; arguments within the
    field widths are stored unchanged, and a [log_dim] argument that is a
    multiple of 4, such as 4 itself, yields a leaf. *)
Theorem make_entry_fields (l b : Z) :
  Entry.ok (make_entry l b) /\
  (0 <= l < 4 -> 0 <= b < 2 ^ 30 ->
   Entry.log_dim (make_entry l b) = l /\ Entry.begin (make_entry l b) = b) /\
  (Entry.log_dim (make_entry l b) = 0 <-> (4 | l)).
Proof.
  unfold make_entry, Entry.ok, Entry.BEGIN_BITS, Entry.LOG_DIM_BITS.
  cbn [Entry.log_dim Entry.begin].
  change (2 ^ 2) with 4. change (2 ^ (32 - 2)) with (2 ^ 30).
  split; [|split].
  - split; apply Z.mod_pos_bound; lia.
  - intros Hl Hb. now rewrite !Z.mod_small.
  - rewrite <- Z.mod_divide by lia. reflexivity.
Qed.

Lemma make_entry_fields_witness :
  Entry.log_dim (make_entry 3 1073741823) = 3 /\
  Entry.begin (make_entry 3 1073741823) = 1073741823.
Proof.
  destruct (make_entry_fields 3 1073741823) as (_ & H & _).
  apply H; lia.
Defined.

(** ** Packed transfer of cells *)

Lemma to_uint_to_int w : Int.in_uint w -> Int.to_uint (Int.to_int w) = w.
Proof.
  unfold Int.in_uint, Int.to_uint, Int.to_int. intros H.
  rewrite Zminus_mod_idemp_l.
  replace (w + 2 ^ 31 - 2 ^ 31) with w by lia. now apply Z.mod_small.
Qed.

Lemma to_ushort_range z : Int.in_ushort (Int.to_ushort z).
Proof. unfold Int.in_ushort, Int.to_ushort. apply Z.mod_pos_bound. lia. Qed.

Lemma to_int_range z : Int.in_int (Int.to_int z).
Proof.
  unfold Int.in_int, Int.to_int, Int.min_int, Int.max_int.
  pose proof (Z.mod_pos_bound (z + 2 ^ 31) (2 ^ 32)). lia.
Qed.

(** The two 16-bit halves of a 32-bit lane, packed again, give the lane. *)
Lemma pack_lanes_halves w :
  Int.in_uint w ->
  pack_lanes (Int.to_ushort w) (Int.to_ushort (Z.shiftr w 16)) = w.
Proof.
  intros H. rewrite pack_lanes_sum by apply to_ushort_range.
  unfold Int.in_uint, Int.to_ushort in *.
  rewrite Z.shiftr_div_pow2 by lia.
  rewrite (Z.mod_small (w / 2 ^ 16)).
  - pose proof (Z.div_mod w (2 ^ 16)). lia.
  - split; [apply Z.div_pos; lia|]. apply Z.div_lt_upper_bound; lia.
Qed.

(** X2.  Loading a compressed cell from any word gives a cell whose coordinates
    fit 16 bits and whose [begin] is an [int]; and storing the cell loaded
    from a word of four 32-bit lanes gives that word back, so that no bit
    of the word is unused. *)
Theorem store_load_small_cell (w : uint4) :
  small_cell_ok (load_cell_small w) /\
  (Int.in_uint (w4_x w) -> Int.in_uint (w4_y w) ->
   Int.in_uint (w4_z w) -> Int.in_uint (w4_w w) ->
   store_cell_small (load_cell_small w) = w).
Proof.
  destruct w as [x y z b]. cbn [w4_x w4_y w4_z w4_w]. split.
  - unfold small_cell_ok, vec_all, load_cell_small, mk_usvec3.
    cbn [sc_min sc_max sc_begin vec_x vec_y vec_z w4_x w4_y w4_z w4_w].
    refine (conj (conj _ (conj _ _)) (conj (conj _ (conj _ _)) _));
      try apply to_ushort_range. apply to_int_range.
  - intros Hx Hy Hz Hb.
    unfold store_cell_small, load_cell_small, mk_usvec3, make_uint4.
    cbn [sc_min sc_max sc_begin vec_x vec_y vec_z w4_x w4_y w4_z w4_w].
    rewrite !pack_lanes_halves by assumption.
    rewrite to_uint_to_int by assumption.
    now rewrite !to_uint_small.
Qed.

Lemma store_load_small_cell_witness :
  store_cell_small (load_cell_small (mk_word4 4294901760 65537 305419896 4294967295)) =
  mk_word4 4294901760 65537 305419896 4294967295.
Proof.
  destruct (store_load_small_cell (mk_word4 4294901760 65537 305419896 4294967295))
    as [_ H].
  apply H; unfold Int.in_uint; simpl; lia.
Defined.

(** X3.  [load_cell_min] gives the minimum corner of the cell that was stored,
    reading the first of the two words only; and a pair of words loaded as
    a cell and stored again is unchanged. *)
Theorem load_cell_min_of_store (c : Cell) (p : int4 * int4) (w : int4) :
  load_cell_min (store_cell c) = cell_min c /\
  load_cell_min (fst p, w) = cell_min (load_cell p) /\
  store_cell (load_cell p) = p.
Proof.
  destruct c as [[? ? ?] ? [? ? ?] ?], p as [[? ? ? ?] [? ? ? ?]].
  repeat split.
Qed.

(** ** Reference enumeration *)

Lemma firstn_prefix {A} (l1 l2 : list A) : firstn (length l1) (l1 ++ l2) = l1.
Proof. induction l1 as [|x l1 IH]; simpl; [reflexivity | now rewrite IH]. Qed.

Lemma skipn_nil_nth {A} (l : list A) n : skipn n l = [] -> nth_error l n = None.
Proof.
  revert l. induction n as [|n IH]; intros [|x l] H; try reflexivity.
  - discriminate.
  - simpl in H. now apply IH.
Qed.

Lemma chain_slice ref_ids b refs :
  chain_at ref_ids b refs ->
  slice ref_ids b (b + Z.of_nat (length refs)) = refs /\
  b + Z.of_nat (length refs) < Z.of_nat (length ref_ids).
Proof.
  intros (Hb & _ & stop & rest & _ & E). split.
  - unfold slice. rewrite E.
    replace (Z.to_nat (b + Z.of_nat (length refs) - b)) with (length refs) by lia.
    apply firstn_prefix.
  - apply (f_equal (@length Z)) in E.
    rewrite length_skipn, length_app in E. simpl in E. lia.
Qed.

(** X4.  On a chain of [n] references the two overloads visit the same
    references in the same order: the [SmallCell] one from [begin] up to
    the terminator, returning [n + 1], and the [Cell] one over
    [[begin, begin + n)], returning [n]. *)
Theorem foreach_ref_overloads_agree {St : Type} (ref_ids refs : list Z)
  (f : Z -> St -> St) (cell : Cell) (sc : SmallCell) (s : St) (fuel : nat) :
  chain_at ref_ids (sc_begin sc) refs ->
  cell_begin cell = sc_begin sc ->
  cell_end cell = sc_begin sc + Z.of_nat (length refs) ->
  Int.in_int (Z.of_nat (length refs) + 1) ->
  (length refs <= fuel)%nat ->
  foreach_ref_small ref_ids f fuel sc s =
  Ret (Z.of_nat (length refs) + 1, visit_all f refs s) /\
  foreach_ref ref_ids f fuel cell s =
  Ret (Z.of_nat (length refs), visit_all f refs s).
Proof.
  intros Hc Hb He Hint Hfuel. split.
  - now apply foreach_ref_small_spec.
  - destruct (chain_slice _ _ _ Hc) as [Hs Hl].
    destruct Hc as (Hb0 & Hrefs & _).
    rewrite foreach_ref_spec; rewrite ?Hb, ?He.
    + rewrite Hs, live_prefix_all by assumption.
      do 2 f_equal. lia.
    + lia.
    + unfold Int.in_int, Int.min_int, Int.max_int in *. lia.
    + lia.
Qed.

Lemma foreach_ref_overloads_agree_witness :
  foreach_ref_small [9; 12; 4; -1; 7] record_ref 2 (small_cell_at 1) [] =
  Ret (3, [4; 12]) /\
  foreach_ref [9; 12; 4; -1; 7] record_ref 2 (cell_over 1 3) [] =
  Ret (2, [4; 12]).
Proof.
  apply (foreach_ref_overloads_agree [9; 12; 4; -1; 7] [12; 4] record_ref
           (cell_over 1 3) (small_cell_at 1) [] 2).
  - split; [simpl; lia|]. split; [repeat constructor; lia|].
    exists (-1), [7]. split; [lia | reflexivity].
  - reflexivity.
  - reflexivity.
  - unfold Int.in_int, Int.min_int, Int.max_int. simpl. lia.
  - simpl. lia.
Defined.

Section ForeachEdges.

Context {St : Type}.
Variable ref_ids : list Z.
Variable f : Z -> St -> St.

(** With no negative value from [cur] on, the loop of the [SmallCell]
    variant runs off the end of the array. *)
Lemma foreach_ref_small_loop_runs_off rest :
  forall cur ref s fuel,
    skipn (Z.to_nat cur) ref_ids = rest ->
    0 <= cur -> 0 <= ref -> Forall (fun r => 0 <= r) rest ->
    (forall r, foreach_ref_small_loop ref_ids f fuel cur ref s <> Ret r) /\
    ((length rest < fuel)%nat ->
     foreach_ref_small_loop ref_ids f fuel cur ref s = Undef).
Proof.
  induction rest as [|x rest IH]; intros cur ref s fuel E Hcur Href Hall;
    destruct fuel as [|fuel]; cbn [foreach_ref_small_loop];
    destruct (Z.leb_spec 0 ref); try lia;
    try (split; [discriminate | simpl; lia]).
  - unfold read, get. destruct (Z.ltb_spec cur 0); [lia|].
    rewrite (skipn_nil_nth _ _ E). cbn [bind].
    split; [discriminate | reflexivity].
  - apply get_skipn in E as [G K]; [|assumption].
    unfold read. rewrite G. cbn [bind].
    apply Forall_cons_iff in Hall as [Hx Hrest].
    destruct (IH (cur + 1) x (f ref s) fuel K ltac:(lia) Hx Hrest) as [N U].
    split; [exact N|]. intros Hf. apply U. simpl in Hf. lia.
Qed.

(** X5.  A chain without terminator: when no value from [begin] to the end of
    the array is negative, the [SmallCell] variant never returns; once the
    loop budget covers the array, it has read past the end of it. *)
Theorem foreach_ref_small_missing_terminator (sc : SmallCell) (s : St) :
  0 <= sc_begin sc ->
  Forall (fun r => 0 <= r) (skipn (Z.to_nat (sc_begin sc)) ref_ids) ->
  (forall fuel r, foreach_ref_small ref_ids f fuel sc s <> Ret r) /\
  (forall fuel, (length ref_ids <= fuel)%nat ->
     foreach_ref_small ref_ids f fuel sc s = Undef).
Proof.
  intros Hb Hall. unfold foreach_ref_small.
  destruct (Z.leb_spec 0 (sc_begin sc)); [|lia].
  destruct (skipn (Z.to_nat (sc_begin sc)) ref_ids) as [|x rest] eqn:E.
  - unfold read, get. destruct (Z.ltb_spec (sc_begin sc) 0); [lia|].
    rewrite (skipn_nil_nth _ _ E). cbn [bind].
    split; [discriminate | reflexivity].
  - pose proof E as E'. apply get_skipn in E' as [G K]; [|assumption].
    unfold read. rewrite G. cbn [bind].
    apply Forall_cons_iff in Hall as [Hx Hrest].
    split.
    + intros fuel r.
      destruct (foreach_ref_small_loop_runs_off rest (sc_begin sc + 1) x s fuel
                  K ltac:(lia) Hx Hrest) as [N _].
      destruct (foreach_ref_small_loop ref_ids f fuel (sc_begin sc + 1) x s)
        as [[c s']| |]; cbn [bind]; try discriminate.
      exfalso. exact (N _ eq_refl).
    + intros fuel Hf.
      destruct (foreach_ref_small_loop_runs_off rest (sc_begin sc + 1) x s fuel
                  K ltac:(lia) Hx Hrest) as [_ U].
      rewrite U; [reflexivity|].
      apply (f_equal (@length Z)) in E. rewrite length_skipn in E.
      simpl in E. lia.
Qed.

(** X6.  An empty cell, [end <= begin]: the [Cell] variant reads nothing and
    does not call the visitor, whatever the array, and returns
    [end - begin], which is negative when [end < begin]. *)
Theorem foreach_ref_empty_cell (cell : Cell) (s : St) (fuel : nat) :
  cell_end cell <= cell_begin cell ->
  Int.in_int (cell_end cell - cell_begin cell) ->
  foreach_ref ref_ids f fuel cell s =
  Ret (cell_end cell - cell_begin cell, s).
Proof.
  intros He Hint. unfold foreach_ref, next_ref.
  destruct (Z.ltb_spec (cell_begin cell) (cell_end cell)); [lia|].
  cbn [bind]. rewrite foreach_ref_loop_stop by lia. cbn [bind].
  now rewrite checked_in_int.
Qed.

(** X7.  The [Cell] variant reads the slice [[begin, end)] only: on two arrays
    that hold the same values there it does the same. *)
Theorem foreach_ref_reads_slice_only (ref_ids' : list Z) (cell : Cell)
  (s : St) (fuel : nat) :
  0 <= cell_begin cell ->
  cell_end cell <= Z.of_nat (length ref_ids) ->
  cell_end cell <= Z.of_nat (length ref_ids') ->
  Int.in_int (cell_end cell - cell_begin cell) ->
  slice ref_ids (cell_begin cell) (cell_end cell) =
  slice ref_ids' (cell_begin cell) (cell_end cell) ->
  (Z.to_nat (cell_end cell - cell_begin cell) <= fuel)%nat ->
  foreach_ref ref_ids f fuel cell s = foreach_ref ref_ids' f fuel cell s.
Proof.
  intros Hb He He' Hint Hs Hfuel.
  rewrite !foreach_ref_spec by (assumption || lia).
  now rewrite Hs.
Qed.

End ForeachEdges.

Lemma foreach_ref_small_missing_terminator_witness :
  foreach_ref_small [12; 4; 7] record_ref 3 (small_cell_at 1) [] = Undef.
Proof.
  refine (proj2 (foreach_ref_small_missing_terminator [12; 4; 7] record_ref
                   (small_cell_at 1) [] _ _) 3%nat _).
  - simpl. lia.
  - repeat constructor; lia.
  - simpl. lia.
Defined.

Lemma foreach_ref_empty_cell_witness :
  foreach_ref [] record_ref 0 (cell_over 7 5) [1] = Ret (-2, [1]).
Proof.
  apply (foreach_ref_empty_cell [] record_ref (cell_over 7 5) [1] 0).
  - simpl. lia.
  - unfold Int.in_int, Int.min_int, Int.max_int. simpl. lia.
Defined.

Lemma foreach_ref_reads_slice_only_witness :
  foreach_ref [0; 3; 7; 0] record_ref 2 (cell_over 1 3) [] =
  foreach_ref [-5; 3; 7; -1; 8] record_ref 2 (cell_over 1 3) [].
Proof.
  apply (foreach_ref_reads_slice_only [0; 3; 7; 0] record_ref
           [-5; 3; 7; -1; 8] (cell_over 1 3) [] 2).
  - simpl. lia.
  - simpl. lia.
  - simpl. lia.
  - unfold Int.in_int, Int.min_int, Int.max_int. simpl. lia.
  - reflexivity.
  - simpl. lia.
Defined.

(** ** Ranges *)

Lemma length_flat_map_const {A B} (f : A -> list B) (l : list A) n :
  (forall x, length (f x) = n) -> length (flat_map f l) = (length l * n)%nat.
Proof.
  intros H. induction l as [|x l IH]; simpl; [reflexivity|].
  now rewrite length_app, H, IH.
Qed.

Lemma length_Zrange n : length (Zrange n) = Z.to_nat n.
Proof. unfold Zrange. now rewrite length_map, length_seq. Qed.

Lemma length_coords nx ny nz :
  0 <= nx -> 0 <= ny -> 0 <= nz ->
  Z.of_nat (length (coords nx ny nz)) = nx * ny * nz.
Proof.
  intros Hx Hy Hz. unfold coords.
  rewrite (length_flat_map_const _ _ (Z.to_nat ny * Z.to_nat nx)%nat).
  - rewrite length_Zrange. lia.
  - intros z. rewrite (length_flat_map_const _ _ (Z.to_nat nx)).
    + now rewrite length_Zrange.
    + intros y. now rewrite length_map, length_Zrange.
Qed.

Lemma In_range_voxels r v : In v (range_voxels r) <-> in_range r v.
Proof.
  unfold range_voxels, in_range. rewrite in_map_iff. split.
  - intros (k & <- & Hk). apply In_coords in Hk. cbn. lia.
  - intros H. destruct v as [x y z]. cbn in H.
    exists (mk_vec (x - lx r) (y - ly r) (z - lz r)). split.
    + unfold vec_add. cbn. f_equal; lia.
    + apply In_coords. cbn. lia.
Qed.

Lemma size_value r :
  size_defined r -> size r = Ret (span_x r * span_y r * span_z r).
Proof.
  unfold size_defined, span_x, span_y, span_z, size.
  intros (A & A1 & B & B1 & C & C1 & AB & ABC).
  rewrite (checked_in_int (hx r - lx r)) by assumption. cbn [bind].
  rewrite (checked_in_int (hx r - lx r + 1)) by assumption. cbn [bind].
  rewrite (checked_in_int (hy r - ly r)) by assumption. cbn [bind].
  rewrite (checked_in_int (hy r - ly r + 1)) by assumption. cbn [bind].
  rewrite (checked_in_int (hz r - lz r)) by assumption. cbn [bind].
  rewrite (checked_in_int (hz r - lz r + 1)) by assumption. cbn [bind].
  rewrite (checked_in_int (_ * _)) by assumption. cbn [bind].
  now rewrite checked_in_int.
Qed.

Lemma size_within_grid (dims : ivec3) (r : Range) :
  range_within dims r ->
  lx r <= hx r -> ly r <= hy r -> lz r <= hz r ->
  vec_x dims * vec_y dims * vec_z dims <= Int.max_int ->
  size r = Ret (Z.of_nat (length (range_voxels r))) /\
  (forall v, In v (range_voxels r) <-> in_range r v) /\
  1 <= Z.of_nat (length (range_voxels r))
    <= vec_x dims * vec_y dims * vec_z dims.
Proof.
  intros ((X0 & X1) & (Y0 & Y1) & (Z0 & Z1)) Hx Hy Hz Hd.
  assert (Z.of_nat (length (range_voxels r)) = span_x r * span_y r * span_z r)
    as E.
  { unfold range_voxels, span_x, span_y, span_z.
    rewrite length_map, length_coords; lia. }
  assert (1 <= span_x r <= vec_x dims /\ 1 <= span_y r <= vec_y dims /\
          1 <= span_z r <= vec_z dims) as (Sx & Sy & Sz)
    by (unfold span_x, span_y, span_z; lia).
  assert (span_x r * span_y r <= vec_x dims * vec_y dims) by nia.
  assert (span_x r * span_y r * span_z r
          <= vec_x dims * vec_y dims * vec_z dims) by nia.
  assert (1 <= span_x r * span_y r) by nia.
  assert (span_x r * span_y r <= span_x r * span_y r * span_z r) by nia.
  rewrite E. split; [|split].
  - apply size_value.
    assert (hx r - lx r = span_x r - 1 /\ hy r - ly r = span_y r - 1 /\
            hz r - lz r = span_z r - 1) as (Ex & Ey & Ez)
      by (unfold span_x, span_y, span_z; lia).
    unfold size_defined, Int.in_int, Int.min_int, Int.max_int in *.
    rewrite Ex, Ey, Ez. repeat split; lia.
  - apply In_range_voxels.
  - nia.
Qed.

(** X8.  For a range within a grid whose number of top-level cells is an
    [int], with [l <= h] on every axis, [size()] is the number of cells of
    the range, between 1 and the number of top-level cells. *)
Theorem size_counts_cells (dims : ivec3) (r : Range) :
  range_within dims r ->
  lx r <= hx r -> ly r <= hy r -> lz r <= hz r ->
  vec_x dims * vec_y dims * vec_z dims <= Int.max_int ->
  size r = Ret (Z.of_nat (length (range_voxels r))) /\
  (forall v, In v (range_voxels r) <-> in_range r v) /\
  1 <= Z.of_nat (length (range_voxels r))
    <= vec_x dims * vec_y dims * vec_z dims.
Proof. apply size_within_grid. Qed.

Lemma size_counts_cells_witness :
  size (mk_Range 1 0 2 3 4 3) = Ret 30.
Proof.
  refine (proj1 (size_counts_cells (mk_vec 4 5 6) (mk_Range 1 0 2 3 4 3)
                   _ _ _ _ _)).
  - unfold range_within. simpl. lia.
  - simpl. lia.
  - simpl. lia.
  - simpl. lia.
  - unfold Int.max_int. simpl. lia.
Defined.

(** X9.  [size()] multiplies signed spans: for a range with no cell on one axis
    and [l <= h + 1] on the others it is at most 0, but for a range that is
    inverted by more than one on two axes it is positive, although the
    range has no cell. *)
Theorem size_of_inverted_range (r : Range) :
  size_defined r ->
  (hx r < lx r -> ly r <= hy r + 1 -> lz r <= hz r + 1 ->
   exists n, size r = Ret n /\ n <= 0) /\
  (hx r + 1 < lx r -> hy r + 1 < ly r -> lz r <= hz r ->
   (exists n, size r = Ret n /\ 0 < n) /\ range_voxels r = []).
Proof.
  intros D. rewrite (size_value r D). unfold span_x, span_y, span_z. split.
  - intros Hx Hy Hz. eexists. split; [reflexivity|].
    apply Z.mul_nonpos_nonneg; [apply Z.mul_nonpos_nonneg|]; lia.
  - intros Hx Hy Hz. split.
    + eexists. split; [reflexivity|].
      apply Z.mul_pos_pos; [apply Z.mul_neg_neg|]; lia.
    + unfold range_voxels, coords, Zrange.
      replace (Z.to_nat (hy r - ly r + 1)) with 0%nat by lia.
      cbn [seq map flat_map].
      induction (map Z.of_nat (seq 0 (Z.to_nat (hz r - lz r + 1))));
        simpl; [reflexivity | assumption].
Qed.

Lemma size_of_inverted_range_witness :
  compute_range (mk_vec 4 4 4) (cube_bbox 0 4) (bbox_of 8 8 0 9 9 4) =
  Ret (mk_Range 8 8 0 3 3 3) /\
  exists n, size (mk_Range 8 8 0 3 3 3) = Ret n /\ 0 < n.
Proof.
  split; [vm_compute; reflexivity|].
  refine (proj1 (proj2 (size_of_inverted_range (mk_Range 8 8 0 3 3 3) _) _ _ _)).
  - unfold size_defined, span_x, span_y, span_z, Int.in_int,
      Int.min_int, Int.max_int. simpl. lia.
  - simpl. lia.
  - simpl. lia.
  - simpl. lia.
Defined.

(** ** The range of a query box *)

Lemma Qtrunc_mono q q' : (q <= q')%Q -> Qtrunc q <= Qtrunc q'.
Proof.
  intros H. destruct (Qlt_le_dec q 0) as [N|P], (Qlt_le_dec q' 0) as [N'|P'].
  - rewrite !Qtrunc_nonpos by now apply Qlt_le_weak.
    now apply Qceiling_resp_le.
  - rewrite (Qtrunc_nonpos q), (Qtrunc_nonneg q')
      by (assumption || now apply Qlt_le_weak).
    pose proof (Qceiling_nonpos q (Qlt_le_weak _ _ N)).
    pose proof (Qfloor_resp_le 0 q' P') as F. change (Qfloor 0) with 0 in F.
    lia.
  - exfalso. apply (Qlt_irrefl 0).
    eapply Qle_lt_trans; [exact P|]. eapply Qle_lt_trans; eauto.
  - rewrite !Qtrunc_nonneg by assumption. now apply Qfloor_resp_le.
Qed.

Section Order.

Import Float.
Local Open Scope Q_scope.

Lemma rounded_pos q : 0 < q -> rounded q = round_pos q.
Proof.
  intros H. unfold rounded. destruct (Qcompare_spec q 0); try reflexivity; lra.
Qed.

Lemma rounded_neg q : q < 0 -> rounded q = - round_pos (- q).
Proof.
  intros H. unfold rounded. destruct (Qcompare_spec q 0); try reflexivity; lra.
Qed.

Lemma rounded_zero q : q == 0 -> rounded q = 0.
Proof.
  intros H. unfold rounded. destruct (Qcompare_spec q 0); try reflexivity; lra.
Qed.

Lemma rounded_comp a b : a == b -> rounded a == rounded b.
Proof.
  intros E. destruct (Qcompare_spec a 0) as [Z|N|P].
  - rewrite !rounded_zero by lra. reflexivity.
  - rewrite !rounded_neg by lra.
    rewrite (round_pos_comp (- a) (- b)); [reflexivity | lra | now rewrite E].
  - rewrite !rounded_pos by lra. now apply round_pos_comp.
Qed.

(** Rounding keeps the order. *)
Lemma rounded_mono a b : a <= b -> rounded a <= rounded b.
Proof.
  intros H.
  destruct (Qcompare_spec a 0) as [Za|Na|Pa],
           (Qcompare_spec b 0) as [Zb|Nb|Pb]; try lra;
    rewrite ?(rounded_zero a), ?(rounded_zero b), ?(rounded_neg a),
      ?(rounded_neg b), ?(rounded_pos a), ?(rounded_pos b) by assumption.
  - lra.
  - apply round_pos_nonneg. assumption.
  - pose proof (round_pos_nonneg (- a)). lra.
  - assert (round_pos (- b) <= round_pos (- a))
      by (apply round_pos_mono; lra). lra.
  - pose proof (round_pos_nonneg (- a)). pose proof (round_pos_nonneg b). lra.
  - now apply round_pos_mono.
Qed.

Lemma real_Fin q x : real (Fin q) = Some x -> x = q.
Proof. intros H. now injection H. Qed.

Lemma real_Zero s x : real (Zero s) = Some x -> x = 0.
Proof. intros H. now injection H. Qed.

(** The number of a rounding that did not overflow. *)
Lemma round_rounded q x : real (round q) = Some x -> x == rounded q.
Proof.
  destruct (Qcompare_spec q 0) as [Z|N|P].
  - rewrite round_of_zero, rounded_zero by assumption. cbn [real].
    intros H. injection H as <-. reflexivity.
  - rewrite round_of_neg, rounded_neg by assumption.
    assert (0 < - q) as P by lra.
    destruct (round_mag_cases true (- q) P) as [[-> _] | [[-> C] | [-> _]]];
      intros H; try discriminate.
    + apply real_Zero in H as ->. rewrite C. reflexivity.
    + apply real_Fin in H as ->. apply Qred_correct.
  - rewrite round_of_pos, rounded_pos by assumption.
    destruct (round_mag_cases false q P) as [[-> _] | [[-> C] | [-> _]]];
      intros H; try discriminate.
    + apply real_Zero in H as ->. rewrite C. reflexivity.
    + apply real_Fin in H as ->. apply Qred_correct.
Qed.

Lemma opp_real x a :
  real x = Some a -> exists a', real (opp x) = Some a' /\ a' == - a.
Proof.
  destruct x as [s|q|s|]; cbn [real opp]; intros H; try discriminate;
    injection H as <-.
  - exists 0. split; reflexivity.
  - exists (Qred (- q)). split; [reflexivity | apply Qred_correct].
Qed.

Lemma add_rounded x y a b s :
  real x = Some a -> real y = Some b -> real (add x y) = Some s ->
  s == rounded (a + b).
Proof.
  destruct x as [sx|qx|sx|], y as [sy|qy|sy|]; cbn [real add];
    intros Hx Hy; try discriminate;
    injection Hx as <-; injection Hy as <-; intros H.
  - injection H as <-. reflexivity.
  - rewrite (round_rounded _ _ H). apply rounded_comp. ring.
  - rewrite (round_rounded _ _ H). apply rounded_comp. ring.
  - apply (round_rounded _ _ H).
Qed.

Lemma sub_rounded x y a b s :
  real x = Some a -> real y = Some b -> real (sub x y) = Some s ->
  s == rounded (a - b).
Proof.
  intros Hx Hy H. destruct (opp_real y b Hy) as (b' & Hb & Eb).
  rewrite (add_rounded x (opp y) a b' s Hx Hb H).
  apply rounded_comp. rewrite Eb. ring.
Qed.

Lemma mul_rounded x y a b m :
  real x = Some a -> real y = Some b -> real (mul x y) = Some m ->
  m == rounded (a * b).
Proof.
  destruct x as [sx|qx|sx|], y as [sy|qy|sy|]; cbn [real mul];
    intros Hx Hy; try discriminate;
    injection Hx as <-; injection Hy as <-; intros H;
    try (injection H as <-; rewrite rounded_zero by ring; reflexivity).
  apply (round_rounded _ _ H).
Qed.

Lemma div_rounded x e a v :
  real x = Some a -> real (div x (Fin e)) = Some v -> v == rounded (a / e).
Proof.
  destruct x as [sx|qx|sx|]; cbn [real div]; intros Hx; try discriminate;
    injection Hx as <-; intros H.
  - injection H as <-. rewrite rounded_zero; [reflexivity|].
    unfold Qdiv. ring.
  - apply (round_rounded _ _ H).
Qed.

(** The factors of a product that is a number are numbers, and so are the
    terms of a difference. *)
Lemma mul_real_inv x y m :
  real (mul x y) = Some m -> exists a b, real x = Some a /\ real y = Some b.
Proof.
  destruct x, y; cbn [mul real]; intros H; try discriminate; eauto.
Qed.

Lemma sub_real_inv x y s :
  real (sub x y) = Some s -> exists a b, real x = Some a /\ real y = Some b.
Proof.
  unfold sub. destruct x, y; cbn [add opp real]; intros H;
    try discriminate; eauto.
  destruct (Bool.eqb neg (negb neg0)); discriminate.
Qed.

Lemma div_real_inv x y v :
  real (div x y) = Some v -> exists a, real x = Some a.
Proof.
  destruct x, y; cbn [div real]; intros H; try discriminate; eauto.
Qed.

Lemma rounded_nonneg q : 0 <= q -> 0 <= rounded q.
Proof.
  intros H. rewrite <- (rounded_zero 0) at 1 by reflexivity.
  now apply rounded_mono.
Qed.

End Order.

(** The scale factor of an axis with a positive extent is not negative. *)
Lemma axis_scale_nonneg dim g0 g1 v :
  0 <= dim -> Float.positive (Float.sub g1 g0) ->
  Float.real (axis_scale dim g0 g1) = Some v -> (0 <= v)%Q.
Proof.
  unfold axis_scale. intros Hd Hp Hv.
  destruct (Float.sub g1 g0) as [s|e|s|]; cbn [Float.positive] in Hp;
    try contradiction.
  destruct (div_real_inv _ _ _ Hv) as (d & Rd).
  rewrite (div_rounded _ _ _ _ Rd Hv).
  apply rounded_nonneg.
  assert (0 <= d)%Q as D.
  { rewrite (round_rounded _ _ Rd). apply rounded_nonneg.
    change 0%Q with (inject_Z 0). rewrite <- Zle_Qle. assumption. }
  apply Qle_shift_div_l; [assumption|]. now rewrite Qmult_0_l.
Qed.

(** On such an axis the coordinate in cell units grows with the point. *)
Lemma to_grid_mono dim g0 g1 p p' t t' :
  0 <= dim -> Float.positive (Float.sub g1 g0) -> Float.le p p' ->
  Float.real (to_grid dim g0 g1 p) = Some t ->
  Float.real (to_grid dim g0 g1 p') = Some t' ->
  (t <= t')%Q.
Proof.
  unfold to_grid. intros Hd Hp Hle Ht Ht'.
  destruct (mul_real_inv _ _ _ Ht) as (s & v & Rs & Rv).
  destruct (mul_real_inv _ _ _ Ht') as (s' & v' & Rs' & Rv').
  rewrite Rv in Rv'. injection Rv' as <-.
  pose proof (axis_scale_nonneg _ _ _ _ Hd Hp Rv) as V.
  rewrite (mul_rounded _ _ _ _ _ Rs Rv Ht), (mul_rounded _ _ _ _ _ Rs' Rv Ht').
  apply rounded_mono. apply Qmult_le_compat_r; [|assumption].
  destruct (sub_real_inv _ _ _ Rs) as (a & g & Ra & Rg).
  destruct (sub_real_inv _ _ _ Rs') as (a' & g' & Ra' & Rg').
  rewrite Rg in Rg'. injection Rg' as <-.
  rewrite (sub_rounded _ _ _ _ _ Ra Rg Rs), (sub_rounded _ _ _ _ _ Ra' Rg Rs').
  apply rounded_mono. unfold Float.le in Hle. rewrite Ra, Ra' in Hle.
  lra.
Qed.

Lemma axis_bounds_mono dim g0 g1 o0 o1 o0' o1' l h l' h' :
  0 <= dim -> Float.positive (Float.sub g1 g0) ->
  Float.le o0' o0 -> Float.le o1 o1' ->
  axis_bounds dim g0 g1 o0 o1 l h ->
  axis_bounds dim g0 g1 o0' o1' l' h' ->
  l' <= l /\ h <= h'.
Proof.
  intros Hd Hp L0 L1 (t0 & t1 & R0 & R1 & _ & _ & _ & El & Eh & _)
         (t0' & t1' & R0' & R1' & _ & _ & _ & El' & Eh' & _).
  pose proof (to_grid_mono _ _ _ _ _ _ _ Hd Hp L0 R0' R0) as M0.
  pose proof (to_grid_mono _ _ _ _ _ _ _ Hd Hp L1 R1 R1') as M1.
  apply Qfloor_resp_le in M0. apply Qtrunc_mono in M1. lia.
Qed.

(** X11.  A larger query box gets a larger range: every cell of the range of a
    box is a cell of the range of any box that contains it. *)
Theorem compute_range_monotone (dims : ivec3) (grid_bb obj_bb obj_bb' : BBox)
  (r r' : Range) :
  vec_all (fun d => 0 <= d) dims ->
  positive_extents grid_bb ->
  bbox_within obj_bb obj_bb' ->
  compute_range dims grid_bb obj_bb = Ret r ->
  compute_range dims grid_bb obj_bb' = Ret r' ->
  forall v, in_range r v -> in_range r' v.
Proof.
  intros (Dx & Dy & Dz) (Ex & Ey & Ez)
         [([Ax _] & [Ay _] & [Az _]) ([_ Bx] & [_ By] & [_ Bz])] H H' v.
  apply compute_range_axes in H as (Hx & Hy & Hz).
  apply compute_range_axes in H' as (Hx' & Hy' & Hz').
  unfold in_range.
  pose proof (axis_bounds_mono _ _ _ _ _ _ _ _ _ _ _ Dx Ex Ax Bx Hx Hx').
  pose proof (axis_bounds_mono _ _ _ _ _ _ _ _ _ _ _ Dy Ey Ay By Hy Hy').
  pose proof (axis_bounds_mono _ _ _ _ _ _ _ _ _ _ _ Dz Ez Az Bz Hz Hz').
  lia.
Qed.

Lemma compute_range_monotone_witness :
  in_range (mk_Range 0 0 0 3 3 3) (mk_vec 2 1 2).
Proof.
  refine (compute_range_monotone (mk_vec 4 4 4) (cube_bbox 0 2)
            (cube_bbox (1 # 2) (3 # 2)) (cube_bbox 0 2)
            (mk_Range 1 1 1 3 3 3) (mk_Range 0 0 0 3 3 3) _ _ _ _ _
            (mk_vec 2 1 2) _).
  - unfold vec_all. simpl. lia.
  - unfold positive_extents, vec_all. vm_compute. auto.
  - unfold bbox_within, in_bbox. vm_compute. intuition discriminate.
  - vm_compute. reflexivity.
  - vm_compute. reflexivity.
  - unfold in_range. simpl. lia.
Defined.

Section Inside.

Import Float.
Local Open Scope Q_scope.

(** What is not negative and rounds below [2^128] rounds to a number. *)
Lemma round_real_nonneg q :
  0 <= q -> rounded q < pow2 emax -> exists x, real (round q) = Some x.
Proof.
  intros H B. destruct (Qcompare_spec q 0) as [Z|N|P]; [|lra|].
  - rewrite round_of_zero by assumption. eexists. reflexivity.
  - rewrite rounded_pos in B by assumption.
    rewrite round_of_pos by assumption.
    destruct (round_mag_cases false q P) as [[_ C] | [[-> _] | [-> _]]];
      [lra | eexists; reflexivity | eexists; reflexivity].
Qed.

Lemma add_real_nonneg x y a b :
  real x = Some a -> real y = Some b ->
  0 <= a + b -> rounded (a + b) < pow2 emax ->
  exists s, real (add x y) = Some s.
Proof.
  destruct x as [sx|qx|sx|], y as [sy|qy|sy|]; cbn [real add];
    intros Hx Hy; try discriminate;
    injection Hx as <-; injection Hy as <-; intros H B.
  - eexists. reflexivity.
  - apply round_real_nonneg; [lra|].
    now rewrite (rounded_comp qy (0 + qy)) by ring.
  - apply round_real_nonneg; [lra|].
    now rewrite (rounded_comp qx (qx + 0)) by ring.
  - now apply round_real_nonneg.
Qed.

Lemma sub_real_nonneg x y a b :
  real x = Some a -> real y = Some b ->
  0 <= a - b -> rounded (a - b) < pow2 emax ->
  exists s, real (sub x y) = Some s.
Proof.
  intros Hx Hy H B. destruct (opp_real y b Hy) as (b' & Hb & Eb).
  apply (add_real_nonneg x (opp y) a b' Hx Hb).
  - rewrite Eb. lra.
  - rewrite (rounded_comp (a + b') (a - b)); [assumption|].
    rewrite Eb. ring.
Qed.

Lemma mul_real_nonneg x y a b :
  real x = Some a -> real y = Some b ->
  0 <= a * b -> rounded (a * b) < pow2 emax ->
  exists m, real (mul x y) = Some m.
Proof.
  destruct x as [sx|qx|sx|], y as [sy|qy|sy|]; cbn [real mul];
    intros Hx Hy; try discriminate;
    injection Hx as <-; injection Hy as <-; intros H B;
    try (eexists; reflexivity).
  now apply round_real_nonneg.
Qed.

(** Anything over a zero is an infinity or a NaN, and so is its product
    with anything. *)
Lemma div_by_zero x s : real (div x (Zero s)) = None.
Proof. destruct x; reflexivity. Qed.

Lemma mul_not_real x y : real y = None -> real (mul x y) = None.
Proof. destruct x, y; intros H; try reflexivity; discriminate. Qed.

End Inside.

(** On an axis of at most [2^23] cells whose extent is a positive number
    and whose scale factor is a number, every point of the grid interval
    has a coordinate between 0 and [dim + 1/2]. *)
Lemma to_grid_inside dim g0 g1 p :
  1 <= dim <= 2 ^ 23 ->
  Float.positive (Float.sub g1 g0) ->
  Float.finite (axis_scale dim g0 g1) ->
  Float.le g0 p -> Float.le p g1 ->
  exists t,
    Float.real (to_grid dim g0 g1 p) = Some t /\
    (0 <= t <= inject_Z dim + (1 # 2))%Q.
Proof.
  intros Hdim Hpos Hfin L0 L1. unfold Float.le in L0, L1.
  destruct (Float.real g0) as [ga|] eqn:Rg0; [|contradiction].
  destruct (Float.real p) as [a|] eqn:Rp; [|contradiction].
  destruct (Float.real g1) as [gb|] eqn:Rg1; [|contradiction].
  pose proof Hpos as Hpos'. pose proof Hfin as Hfin'.
  unfold to_grid, axis_scale in *.
  destruct (Float.sub g1 g0) as [s|e|s|] eqn:Ee;
    cbn [Float.positive] in Hpos; try contradiction.
  destruct (add_Fin _ _ _ Ee) as (q0 & Rq).
  destruct (round_Fin_pos q0 e Rq Hpos) as (_ & _ & Eu).
  assert (e == Float.rounded (gb - ga))%Q as Ev
    by (apply (sub_rounded g1 g0); [assumption | assumption |];
        rewrite Ee; reflexivity).
  destruct (sub_real_nonneg p g0 a ga Rp Rg0) as (s & Rs); [lra | |].
  { eapply Qle_lt_trans; [|exact Eu]. rewrite Ev.
    apply rounded_mono. lra. }
  pose proof (sub_rounded _ _ _ _ _ Rp Rg0 Rs) as Es.
  assert (0 <= s <= e)%Q as [S0 S1].
  { rewrite Es, Ev. split; [apply rounded_nonneg | apply rounded_mono]; lra. }
  destruct (of_int_exact dim) as (d & Ed & Hd); [lia|].
  rewrite Ed in *. cbn [Float.div] in *.
  destruct (scale_real dim d e Hdim Hd (conj Hpos Eu) Hfin) as [Rv Pv].
  destruct (far_end_real dim d e Hdim Hd (conj Hpos Eu) _ (Qred_correct _))
    as (tf & Rf & _ & Uf).
  pose proof (round_rounded _ _ Rf) as Ef.
  rewrite Rv.
  set (v := Qred (Float.round_pos (d / e))) in *.
  assert (0 < v)%Q as V by (unfold v; now rewrite Qred_correct).
  assert (Float.real (Float.Fin v) = Some v) as Rfv by reflexivity.
  assert (s * v <= e * v)%Q as M by (apply Qmult_le_compat_r; lra).
  assert (0 <= s * v)%Q as M0 by (apply Qmult_le_0_compat; lra).
  pose proof (rounded_mono _ _ M) as RM.
  destruct (mul_real_nonneg _ _ s v Rs Rfv M0) as (t & Rt).
  { eapply Qle_lt_trans; [exact RM|]. rewrite <- Ef.
    eapply Qle_lt_trans; [exact Uf|].
    apply (Qlt_le_trans _ 8388609); [|vm_compute; discriminate].
    rewrite Hd. change 8388609%Q with (inject_Z (2 ^ 23) + 1)%Q.
    assert (inject_Z dim <= inject_Z (2 ^ 23))%Q by (rewrite <- Zle_Qle; lia).
    lra. }
  exists t. split; [exact Rt|].
  rewrite (mul_rounded _ _ _ _ _ Rs Rfv Rt). split.
  - now apply rounded_nonneg.
  - eapply Qle_trans; [exact RM|]. rewrite <- Ef, <- Hd. exact Uf.
Qed.

Lemma axis_inside dim g0 g1 o0 o1 :
  1 <= dim <= 2 ^ 23 ->
  Float.positive (Float.sub g1 g0) ->
  Float.finite (axis_scale dim g0 g1) ->
  Float.le g0 o0 /\ Float.le o0 g1 ->
  Float.le g0 o1 /\ Float.le o1 g1 ->
  exists a b,
    int_of_float (to_grid dim g0 g1 o0) = Ret a /\
    int_of_float (to_grid dim g0 g1 o1) = Ret b /\
    0 <= a <= dim /\ 0 <= b <= dim /\
    (Float.le o0 o1 -> a <= b).
Proof.
  intros Hdim Hpos Hfin [A0 A1] [B0 B1].
  destruct (to_grid_inside dim g0 g1 o0 Hdim Hpos Hfin A0 A1)
    as (t0 & R0 & L0 & U0).
  destruct (to_grid_inside dim g0 g1 o1 Hdim Hpos Hfin B0 B1)
    as (t1 & R1 & L1 & U1).
  assert (forall t, (0 <= t <= inject_Z dim + (1 # 2))%Q ->
                    0 <= Qtrunc t <= dim) as T.
  { intros t [L U]. rewrite Qtrunc_nonneg by assumption. split.
    - apply (Qfloor_resp_le 0 t L).
    - apply Z.lt_succ_r. rewrite Zlt_Qlt.
      eapply Qle_lt_trans; [apply Qfloor_le|].
      unfold Z.succ. rewrite inject_Z_plus. change (inject_Z 1) with 1%Q.
      lra. }
  pose proof (T t0 (conj L0 U0)) as T0. pose proof (T t1 (conj L1 U1)) as T1.
  assert (forall z, 0 <= z <= dim -> Int.in_int z) as I
    by (unfold Int.in_int, Int.min_int, Int.max_int; intros; lia).
  exists (Qtrunc t0), (Qtrunc t1).
  split; [apply int_of_float_real; auto|].
  split; [apply int_of_float_real; auto|].
  split; [assumption|]. split; [assumption|].
  intros Hle. apply Qtrunc_mono.
  apply (to_grid_mono dim g0 g1 o0 o1); try assumption. lia.
Qed.

(** X12.  With between 1 and [2^23] cells on each axis, a grid box whose
    extents are positive numbers and scale factors that are numbers,
    [compute_range] returns for every query box within the grid box: each
    low bound lies between 0 and [dims], each high bound between 0 and
    [dims - 1], and where the query box has [min <= max] the low bound
    exceeds the high bound by one at most. *)
Theorem compute_range_inside (dims : ivec3) (grid_bb obj_bb : BBox) :
  vec_all (fun d => 1 <= d <= 2 ^ 23) dims ->
  positive_extents grid_bb ->
  finite_scale dims grid_bb ->
  bbox_within obj_bb grid_bb ->
  exists r,
    compute_range dims grid_bb obj_bb = Ret r /\
    (0 <= lx r <= vec_x dims /\ 0 <= hx r <= vec_x dims - 1 /\
     (Float.le (vec_x (bb_min obj_bb)) (vec_x (bb_max obj_bb)) ->
      lx r <= hx r + 1)) /\
    (0 <= ly r <= vec_y dims /\ 0 <= hy r <= vec_y dims - 1 /\
     (Float.le (vec_y (bb_min obj_bb)) (vec_y (bb_max obj_bb)) ->
      ly r <= hy r + 1)) /\
    (0 <= lz r <= vec_z dims /\ 0 <= hz r <= vec_z dims - 1 /\
     (Float.le (vec_z (bb_min obj_bb)) (vec_z (bb_max obj_bb)) ->
      lz r <= hz r + 1)).
Proof.
  intros (Dx & Dy & Dz) (Px & Py & Pz) (Fx & Fy & Fz)
         [(Ax & Ay & Az) (Bx & By & Bz)].
  rewrite compute_range_unfold.
  destruct (axis_inside _ _ _ _ _ Dx Px Fx Ax Bx)
    as (ax & bx & -> & -> & Lx & Hx & Mx).
  destruct (axis_inside _ _ _ _ _ Dy Py Fy Ay By)
    as (ay & by' & -> & -> & Ly & Hy & My).
  destruct (axis_inside _ _ _ _ _ Dz Pz Fz Az Bz)
    as (az & bz & -> & -> & Lz & Hz & Mz).
  assert (forall d, 1 <= d <= 2 ^ 23 -> Int.in_int (d - 1)) as I
    by (unfold Int.in_int, Int.min_int, Int.max_int; intros; lia).
  rewrite !checked_in_int by auto. cbn [bind].
  eexists. split; [reflexivity|]. cbn [lx ly lz hx hy hz].
  repeat split; try lia; intros Hle;
    [specialize (Mx Hle) | specialize (My Hle) | specialize (Mz Hle)]; lia.
Qed.

Lemma compute_range_inside_witness :
  exists r,
    compute_range (mk_vec 4 4 4) (cube_bbox (-4) 4)
      (cube_bbox (39999998 # 10000000) 4) = Ret r /\
    lx r = 4 /\ hx r = 3.
Proof.
  destruct (compute_range_inside (mk_vec 4 4 4) (cube_bbox (-4) 4)
              (cube_bbox (39999998 # 10000000) 4)) as (r & E & _).
  - unfold vec_all. simpl. lia.
  - unfold positive_extents, vec_all. vm_compute. auto.
  - unfold finite_scale, vec_all. vm_compute. auto.
  - unfold bbox_within, in_bbox. vm_compute. intuition discriminate.
  - exists r. split; [exact E|].
    assert (compute_range (mk_vec 4 4 4) (cube_bbox (-4) 4)
              (cube_bbox (39999998 # 10000000) 4) =
            Ret (mk_Range 4 4 4 3 3 3)) as C by (vm_compute; reflexivity).
    rewrite C in E. injection E as <-. split; reflexivity.
Defined.

(** X19.  If an extent of the grid box is a zero, the scale factor of that
    axis is an infinity or a NaN and [compute_range] returns no range,
    whatever the dimensions and the query box. *)
Theorem compute_range_flat_grid (dims : ivec3) (grid_bb obj_bb : BBox)
  (r : Range) :
  (exists s, vec_x (extents grid_bb) = Float.Zero s) \/
  (exists s, vec_y (extents grid_bb) = Float.Zero s) \/
  (exists s, vec_z (extents grid_bb) = Float.Zero s) ->
  compute_range dims grid_bb obj_bb <> Ret r.
Proof.
  intros H C. apply compute_range_axes in C as (X & Y & Z).
  assert (forall dim g0 g1 o0 o1 l h s,
            Float.sub g1 g0 = Float.Zero s ->
            ~ axis_bounds dim g0 g1 o0 o1 l h) as N.
  { intros dim g0 g1 o0 o1 l h s E (t0 & _ & R & _).
    unfold to_grid, axis_scale in R. rewrite E in R.
    rewrite mul_not_real in R by apply div_by_zero. discriminate. }
  destruct H as [[s E] | [[s E] | [s E]]]; cbn [extents vec_x vec_y vec_z] in E;
    [apply (N _ _ _ _ _ _ _ _ E X) | apply (N _ _ _ _ _ _ _ _ E Y)
     | apply (N _ _ _ _ _ _ _ _ E Z)].
Qed.

Lemma compute_range_flat_grid_witness :
  compute_range (mk_vec 4 4 4) (bbox_of 0 0 0 4 0 4) (cube_bbox 1 2) = Undef /\
  compute_range (mk_vec 4 4 4) (bbox_of 0 0 0 4 0 4) (cube_bbox 1 2) <>
  Ret (mk_Range 1 0 1 2 3 2).
Proof.
  split; [vm_compute; reflexivity|].
  apply compute_range_flat_grid. right. left.
  exists false. vm_compute. reflexivity.
Defined.

(** A product with a zero or NaN factor is a zero or a NaN, and anything
    over a zero or a NaN is no number. *)
Lemma mul_zero_or_nan x y :
  ((exists s, x = Float.Zero s) \/ x = Float.NaN) \/
  ((exists s, y = Float.Zero s) \/ y = Float.NaN) ->
  (exists s, Float.mul x y = Float.Zero s) \/ Float.mul x y = Float.NaN.
Proof.
  intros H.
  destruct x as [sx|qx|sx|], y as [sy|qy|sy|]; cbn [Float.mul];
    try (right; reflexivity); try (left; eexists; reflexivity);
    exfalso; destruct H as [[[s H] | H] | [[s H] | H]]; discriminate.
Qed.

Lemma div_zero_or_nan x y :
  (exists s, y = Float.Zero s) \/ y = Float.NaN ->
  Float.real (Float.div x y) = None.
Proof.
  intros [[s ->] | ->]; [apply div_by_zero|]. destruct x; reflexivity.
Qed.

Section FlatBox.

Variable cbrtf : Float.t -> Float.t.

(** The cube root of an infinity or of a NaN is no number. *)
Hypothesis cbrtf_not_real :
  forall x, Float.real x = None -> Float.real (cbrtf x) = None.

(** X20.  If an extent of the box is a zero, the volume is a zero or a NaN,
    [ratio] is an infinity or a NaN, and [compute_grid_dims] returns no
    dimensions, whatever the number of primitives and the density. *)
Theorem compute_grid_dims_flat_box (bb : BBox) (num_prims : Z)
  (density : Float.t) (d : ivec3) :
  (exists s, vec_x (extents bb) = Float.Zero s) \/
  (exists s, vec_y (extents bb) = Float.Zero s) \/
  (exists s, vec_z (extents bb) = Float.Zero s) ->
  compute_grid_dims cbrtf bb num_prims density <> Ret d.
Proof.
  intros H C. unfold compute_grid_dims in C. cbv zeta in C.
  set (ex := vec_x (extents bb)) in *. set (ey := vec_y (extents bb)) in *.
  set (ez := vec_z (extents bb)) in *.
  assert ((exists s, Float.mul (Float.mul ex ey) ez = Float.Zero s) \/
          Float.mul (Float.mul ex ey) ez = Float.NaN) as V.
  { destruct H as [[s E] | [[s E] | [s E]]]; apply mul_zero_or_nan.
    - left. apply mul_zero_or_nan. left. left. eauto.
    - left. apply mul_zero_or_nan. right. left. eauto.
    - right. left. eauto. }
  pose proof (cbrtf_not_real _
                (div_zero_or_nan (Float.mul density (Float.of_int num_prims))
                   _ V)) as R.
  invert_bind C. apply int_of_float_Ret in E as (q & Rq & _).
  rewrite mul_not_real in Rq by exact R. discriminate.
Qed.

End FlatBox.

Lemma compute_grid_dims_flat_box_witness :
  compute_grid_dims cbrtf_of_cubes (bbox_of 0 0 0 4 0 4) 8 (Float.of_Q 1) =
  Undef /\
  compute_grid_dims cbrtf_of_cubes (bbox_of 0 0 0 4 0 4) 8 (Float.of_Q 1) <>
  Ret (mk_vec 1 1 1).
Proof.
  split; [vm_compute; reflexivity|].
  apply compute_grid_dims_flat_box.
  - intros [s|q|s|] H; try discriminate; reflexivity.
  - right. left. exists false. vm_compute. reflexivity.
Defined.

(** ** Addressing of the voxel map *)

Lemma vec_ext {A} (a b : vec A) :
  vec_x a = vec_x b -> vec_y a = vec_y b -> vec_z a = vec_z b -> a = b.
Proof. destruct a, b. cbn. now intros -> -> ->. Qed.

Lemma radix_inj m x a x' a' :
  0 <= x < m -> 0 <= x' < m -> x + m * a = x' + m * a' -> x = x' /\ a = a'.
Proof.
  intros Hx Hx' E.
  assert (a = a') as ->.
  { apply (f_equal (fun z => z / m)) in E.
    rewrite !(Z.mul_comm m), !Z.div_add, !Z.div_small in E by lia. lia. }
  split; [lia | reflexivity].
Qed.

Lemma flat_inj mx my x y z x' y' z' :
  0 <= x < mx -> 0 <= x' < mx -> 0 <= y < my -> 0 <= y' < my ->
  x + mx * (y + my * z) = x' + mx * (y' + my * z') ->
  x = x' /\ y = y' /\ z = z'.
Proof.
  intros Hx Hx' Hy Hy' E.
  apply radix_inj in E as [-> E]; try assumption.
  apply radix_inj in E as [-> ->]; try assumption. auto.
Qed.

Lemma flat_range mx my mz x y z :
  0 <= x < mx -> 0 <= y < my -> 0 <= z < mz ->
  0 <= x + mx * (y + my * z) < mx * my * mz.
Proof.
  intros Hx Hy Hz.
  assert (0 <= y + my * z <= my * mz - 1) by nia.
  assert (0 <= mx * (y + my * z) <= mx * (my * mz - 1)) by nia.
  lia.
Qed.

(** X14.  The children of a block: the offsets [k.x + ((k.y + (k.z << l)) << l)]
    of the local coordinates [k] of a cube of side [2^l] are distinct and
    fill [[0, 8^l)], so that the block has [8^l] entries, one per child. *)
Theorem child_offset_bijective (l : Z) :
  0 <= l ->
  (forall k, In k (coords (2 ^ l) (2 ^ l) (2 ^ l)) ->
     0 <= child_offset l k < 2 ^ (3 * l)) /\
  (forall k k',
     In k (coords (2 ^ l) (2 ^ l) (2 ^ l)) ->
     In k' (coords (2 ^ l) (2 ^ l) (2 ^ l)) ->
     child_offset l k = child_offset l k' -> k = k') /\
  (forall o, 0 <= o < 2 ^ (3 * l) ->
     exists k, In k (coords (2 ^ l) (2 ^ l) (2 ^ l)) /\ child_offset l k = o).
Proof.
  intros Hl.
  assert (0 < 2 ^ l) as P by (apply Z.pow_pos_nonneg; lia).
  assert (2 ^ (3 * l) = 2 ^ l * 2 ^ l * 2 ^ l) as E3.
  { replace (3 * l) with (l + l + l) by lia.
    rewrite !Z.pow_add_r by lia. reflexivity. }
  rewrite E3. split; [|split].
  - intros k Hk. apply In_coords in Hk. rewrite child_offset_flat by assumption.
    apply flat_range; lia.
  - intros [x y z] [x' y' z'] Hk Hk'. apply In_coords in Hk, Hk'. cbn in Hk, Hk'.
    rewrite !child_offset_flat by assumption. cbn [vec_x vec_y vec_z].
    intros E. apply flat_inj in E as (-> & -> & ->); try lia. reflexivity.
  - intros o Ho. set (m := 2 ^ l) in *.
    exists (mk_vec (o mod m) ((o / m) mod m) (o / m / m)). split.
    + apply In_coords. cbn.
      pose proof (Z.mod_pos_bound o m P).
      pose proof (Z.mod_pos_bound (o / m) m P).
      assert (0 <= o / m / m < m).
      { split; [apply Z.div_pos; [apply Z.div_pos|]; lia|].
        apply Z.div_lt_upper_bound; [lia|].
        apply Z.div_lt_upper_bound; [lia|]. lia. }
      lia.
    + rewrite child_offset_flat by assumption. cbn [vec_x vec_y vec_z].
      fold m.
      assert ((o / m) mod m + m * (o / m / m) = o / m) as ->
        by (pose proof (Z.div_mod (o / m) m); lia).
      pose proof (Z.div_mod o m). lia.
Qed.

Lemma child_offset_bijective_witness :
  exists k, In k (coords (2 ^ 2) (2 ^ 2) (2 ^ 2)) /\ child_offset 2 k = 27.
Proof.
  destruct (child_offset_bijective 2) as (_ & _ & H); [lia|].
  apply H. simpl. lia.
Defined.

(** X15.  The top-level entries: for voxels of the grid, [lookup_entry] reads
    the entry at an index below [dims.x * dims.y * dims.z], and two voxels
    get the same index exactly when they lie in the same top-level cell. *)
Theorem top_index_separates_cells (shift : Z) (dims v v' : ivec3) :
  wf_params shift dims = true ->
  in_domain shift dims v -> in_domain shift dims v' ->
  (exists i,
     top_index shift dims v = Ret i /\
     0 <= i < vec_x dims * vec_y dims * vec_z dims) /\
  (top_index shift dims v = top_index shift dims v' <->
   top_coord shift v = top_coord shift v').
Proof.
  intros W Hv Hv'.
  pose proof (wf_params_spec _ _ W) as (Hs & _).
  destruct (top_coord_in_domain _ _ _ (proj1 Hs) Hv) as (Ht & _).
  destruct (top_coord_in_domain _ _ _ (proj1 Hs) Hv') as (Ht' & _).
  rewrite (top_index_in_grid _ _ _ W Ht), (top_index_in_grid _ _ _ W Ht').
  apply In_coords in Ht, Ht'. unfold top_entry. split.
  - eexists. split; [reflexivity|]. apply flat_range; lia.
  - split.
    + intros [= E]. cbn in Ht, Ht'.
      apply flat_inj in E as (Ex & Ey & Ez); try lia.
      apply vec_ext; assumption.
    + now intros ->.
Qed.

Lemma top_index_separates_cells_witness :
  top_index 2 (mk_vec 2 1 1) (mk_vec 5 1 3) =
  top_index 2 (mk_vec 2 1 1) (mk_vec 7 3 0) <->
  top_coord 2 (mk_vec 5 1 3) = top_coord 2 (mk_vec 7 3 0).
Proof.
  refine (proj2 (top_index_separates_cells 2 (mk_vec 2 1 1) (mk_vec 5 1 3)
                   (mk_vec 7 3 0) _ _ _)).
  - reflexivity.
  - unfold in_domain. simpl. lia.
  - unfold in_domain. simpl. lia.
Defined.

(** ** Lookup *)

Lemma read_Ret {A} (a : list A) i v : read a i = Ret v -> In v a.
Proof.
  unfold read, get. destruct (i <? 0); [discriminate|].
  destruct (nth_error a (Z.to_nat i)) eqn:E; [|discriminate].
  intros [= <-]. eapply nth_error_In; eauto.
Qed.

Lemma read_same {A} (a : list A) i :
  read a i = Undef \/ exists v, read a i = Ret v /\ In v a.
Proof.
  destruct (read a i) eqn:E; auto.
  - right. eexists. split; [reflexivity|]. eapply read_Ret; eauto.
  - unfold read in E. destruct (get a i); discriminate.
Qed.

Section LookupEdges.

Variable entries : list Entry.t.
Variable shift : Z.

Lemma lookup_loop_returns_leaf fuel :
  forall voxel e d r,
    In e entries ->
    lookup_loop fuel entries shift voxel e (Entry.log_dim e) d = Ret r ->
    exists e', In e' entries /\ Entry.log_dim e' = 0 /\ Entry.begin e' = r.
Proof.
  induction fuel as [|fuel IH]; intros voxel e d r He H;
    cbn [lookup_loop] in H;
    destruct (Z.eqb_spec (Entry.log_dim e) 0) as [L|L];
    try (injection H as <-; eauto); try discriminate.
  do 2 invert_bind H.
  match goal with E : read _ _ = Ret _ |- _ => apply read_Ret in E end.
  eapply IH; eauto.
Qed.

(** X16.  Whatever the voxel map and the voxel, a value that [lookup_entry]
    returns is the [begin] of a leaf entry of the map: the [begin] of an
    internal entry is never returned as a cell index. *)
Theorem lookup_entry_returns_leaf (dims voxel : ivec3) (fuel : nat) (r : Z) :
  lookup_entry fuel entries shift dims voxel = Ret r ->
  exists e, In e entries /\ Entry.log_dim e = 0 /\ Entry.begin e = r.
Proof.
  unfold lookup_entry. intros H. do 2 invert_bind H.
  match goal with E : read _ _ = Ret _ |- _ => apply read_Ret in E end.
  eapply lookup_loop_returns_leaf; eauto.
Qed.

(** Bits [s] to [s + l - 1] of a voxel component are among its [shift]
    low bits when [s + l <= shift]. *)
Lemma local_bits_low a a' s l :
  0 <= s -> 0 <= l -> s + l <= shift ->
  a mod 2 ^ shift = a' mod 2 ^ shift ->
  (a / 2 ^ s) mod 2 ^ l = (a' / 2 ^ s) mod 2 ^ l.
Proof.
  intros Hs Hl Hsl E. apply Z.bits_inj'. intros i Hi.
  destruct (Z.lt_ge_cases i l).
  - rewrite !Z.mod_pow2_bits_low, !Z.div_pow2_bits by lia.
    rewrite <- (Z.mod_pow2_bits_low a shift), <- (Z.mod_pow2_bits_low a' shift)
      by lia.
    now rewrite E.
  - now rewrite !Z.mod_pow2_bits_high by lia.
Qed.

Lemma local_coord_low s l v v' :
  0 <= s -> 0 <= l -> s + l <= shift ->
  same_low_bits shift v v' -> local_coord s l v = local_coord s l v'.
Proof.
  intros Hs Hl Hsl (Ex & Ey & Ez). unfold local_coord, vec_map.
  f_equal; now apply local_bits_low.
Qed.

Hypothesis Hentries : Forall Entry.ok entries.
Hypothesis Hshift : 0 <= shift < 32.

Lemma lookup_loop_low_bits fuel :
  forall v v' e d,
    same_low_bits shift v v' ->
    In e entries -> Entry.log_dim e <= d <= shift + 3 ->
    lookup_loop fuel entries shift v e (Entry.log_dim e) d =
    lookup_loop fuel entries shift v' e (Entry.log_dim e) d.
Proof.
  induction fuel as [|fuel IH]; intros v v' e d Hv He Hd; [reflexivity|].
  cbn [lookup_loop].
  destruct (Z.eqb_spec (Entry.log_dim e) 0) as [L|L]; [reflexivity|].
  pose proof (proj1 (Forall_forall _ _) Hentries) as Hall.
  pose proof (ok_bounds e (Hall e He)) as [Hl Hb].
  unfold shift_right.
  destruct (Z.le_gt_cases d shift) as [Hle|Hgt].
  - rewrite to_int_to_uint
      by (unfold Int.in_int, Int.min_int, Int.max_int; lia).
    destruct (Z.leb_spec 0 (shift - d)); [|lia].
    destruct (Z.ltb_spec (shift - d) 32); [|lia].
    cbn [andb bind]. rewrite !masked_shift by lia.
    rewrite (local_coord_low _ _ v v') by (assumption || lia).
    destruct (read_same entries
                (Int.to_uint (Entry.begin e +
                   child_offset (Entry.log_dim e)
                     (local_coord (shift - d) (Entry.log_dim e) v'))))
      as [U | (e2 & R & He2)]; rewrite ?U, ?R; [reflexivity|].
    cbn [bind].
    pose proof (ok_bounds e2 (Hall e2 He2)) as [Hl2 _].
    rewrite to_uint_small by (unfold Int.in_uint; lia).
    apply IH; try assumption; lia.
  - assert (Int.to_int (Int.to_uint (shift - d)) = shift - d) as ->.
    { unfold Int.to_int, Int.to_uint. rewrite Zplus_mod_idemp_l.
      replace (shift - d + 2 ^ 31) with (shift - d + 2 ^ 31 + 0) by lia.
      rewrite Z.mod_small; lia. }
    destruct (Z.leb_spec 0 (shift - d)); [lia|]. reflexivity.
Qed.

(** X17.  No bounds are checked, and once the top-level entry is read the
    descent looks at the [shift] low bits of the voxel only: two voxels
    with the same top-level index that agree on those bits get the same
    result, whether or not they are voxels of the grid. *)
Theorem lookup_entry_low_bits (dims v v' : ivec3) (fuel : nat) :
  same_low_bits shift v v' ->
  top_index shift dims v = top_index shift dims v' ->
  lookup_entry fuel entries shift dims v =
  lookup_entry fuel entries shift dims v'.
Proof.
  intros Hv Ht. unfold lookup_entry. rewrite Ht.
  destruct (top_index shift dims v') as [i| |]; try reflexivity.
  cbn [bind].
  destruct (read_same entries i) as [U | (e & R & He)]; rewrite ?U, ?R;
    [reflexivity|].
  cbn [bind]. cbv zeta.
  pose proof (proj1 (Forall_forall _ _) Hentries) as Hall.
  pose proof (ok_bounds e (Hall e He)) as [Hl _].
  apply lookup_loop_low_bits; try assumption. lia.
Qed.

End LookupEdges.

Lemma lookup_entry_returns_leaf_witness :
  exists e,
    In e (Grid.entries sample_grid) /\ Entry.log_dim e = 0 /\ Entry.begin e = 3.
Proof.
  apply (lookup_entry_returns_leaf (Grid.entries sample_grid) 2
           (mk_vec 2 1 1) (mk_vec 0 1 2) 1 3).
  reflexivity.
Defined.

(** The voxel [(9, -4, 1)] is outside the sample grid, and is resolved as
    the voxel [(1, 0, 1)]. *)
Lemma lookup_entry_low_bits_witness :
  lookup_entry 2 (Grid.entries sample_grid) 2 (mk_vec 2 1 1) (mk_vec 9 (-4) 1) =
  lookup_entry 2 (Grid.entries sample_grid) 2 (mk_vec 2 1 1) (mk_vec 1 0 1).
Proof.
  apply (lookup_entry_low_bits (Grid.entries sample_grid) 2).
  - repeat constructor; unfold Entry.ok; cbn; lia.
  - lia.
  - unfold same_low_bits. repeat split.
  - reflexivity.
Defined.

(** X18.  In a well-formed grid every voxel of the grid is resolved, within
    [shift] turns of the loop, to a cell of the active cell array whose
    bounds hold the voxel. *)
Theorem lookup_entry_covers_domain (g : Grid.t) (voxel : ivec3) (fuel : nat) :
  wf_grid g = true ->
  in_domain (Grid.shift g) (Grid.dims g) voxel ->
  (Z.to_nat (Grid.shift g) <= fuel)%nat ->
  exists j c,
    lookup_entry fuel (Grid.entries g) (Grid.shift g) (Grid.dims g) voxel =
    Ret j /\
    get (active_cells g) j = Some c /\ in_cell c voxel.
Proof.
  unfold wf_grid. rewrite !andb_true_iff.
  intros [[[Wp Wt] _] _] Hv Hfuel.
  pose proof (wf_params_spec _ _ Wp) as (Hs & _).
  destruct (top_coord_in_domain _ _ _ (proj1 Hs) Hv) as (Ht & Ha & Hcube).
  unfold lookup_entry. rewrite (top_index_in_grid _ _ _ Wp Ht). cbn [bind].
  pose proof (wf_top_spec _ _ _ _ _ Wt Ht) as W.
  destruct (wf_node_inv _ _ Hs _ _ _ _ _ W) as (e & G & _).
  unfold read. rewrite G. cbn [bind]. cbv zeta.
  destruct (lookup_loop_finds (Grid.entries g) (Grid.shift g) Hs voxel
              (active_cells g) _ 0 _ _ e fuel W) as (j & c' & R & Gj & Hj);
    try assumption; try lia;
    try (now rewrite Z.sub_0_r).
  exists j, c'. auto.
Qed.

Lemma lookup_entry_covers_domain_witness :
  exists j c,
    lookup_entry 2 (Grid.entries sample_grid) 2 (mk_vec 2 1 1) (mk_vec 6 2 1) =
    Ret j /\
    get (active_cells sample_grid) j = Some c /\ in_cell c (mk_vec 6 2 1).
Proof.
  apply (lookup_entry_covers_domain sample_grid (mk_vec 6 2 1) 2).
  - reflexivity.
  - unfold in_domain. simpl. lia.
  - simpl. lia.
Defined.
